(** * The tournament page script (script.js): a shallow embedding

    The script keeps a constant array of match records, renders one card per
    record into a container, fills and toggles a modal, and runs a repeating
    countdown tick.  Everything it does is a mutation of the document or of
    the host's timer table, so the embedding threads an explicit [World]
    through a small state-and-exception monad.

    Conventions of the model:
    - the document is a finite map from element id to element; an element
      reference is the id it was found under ([getElementById] returns
      [None] for JavaScript's [null]);
    - markup assigned through [innerHTML] is kept as the assigned string
      (node [Markup]); what the browser makes of it is given by
      [Html.parse], the HTML fragment parser restricted to the markup the
      templates are made of (text, comments, and the elements h2, h3, p,
      strong, a, iframe, properly nested, with double-quoted attributes);
      on anything else [Html.parse] gives no answer, and an operation that
      needs the parsed markup then ends as [Beyond];
    - the elements the script writes into are taken to be flow containers
      (as a div is), so that their content is parsed in the body mode;
    - a number is an integer-valued double, or [NaN] for an invalid date;
      subtraction rounds as doubles do, [%] is the truncated remainder and
      [Math.floor (a / c)] is floor division, which is what the double
      division gives for the distances two time values can be apart;
    - interval ids handed out by [setInterval] are fresh. *)

From Stdlib Require Import ZArith Lia.
From stdpp Require Import base gmap strings list fin_maps pretty.

Local Open Scope Z_scope.

(** ** Strings *)

Module Str.

(** The double-quote and newline characters of the template literals. *)
Definition dq : string := String (Ascii.ascii_of_nat 34) EmptyString.
Definition nl : string := String (Ascii.ascii_of_nat 10) EmptyString.

End Str.

(** ** The match catalog (script.js, lines 2-35) *)

Record Match := mkMatch {
  id : Z;
  teams : string;
  date : string;
  time : string;
  description : string;
  liveStreamLink : string
}.

Definition matchesData : list Match :=
  [ mkMatch 1 "تیم الف vs تیم ب" "۱۴۰۴/۰۱/۱۰" "۲۱:۰۰"
      "بازی افتتاحیه بین تیم الف و تیم ب. انتظار می‌رود بازی جذاب و پرتماشاگری باشد."
      "https://www.youtube.com/embed/dQw4w9WgXcQ";
    mkMatch 2 "تیم ج vs تیم د" "۱۴۰۴/۰۱/۱۱" "۲۲:۳۰"
      "بازی حساس مرحله مقدماتی با حضور بازیکنان سرشناس هر دو تیم."
      "https://www.aparat.com/v/xxxxx";
    mkMatch 3 "تیم ه vs تیم و" "۱۴۰۴/۰۱/۱۲" "۲۳:۰۰"
      "مصاف تماشایی بین تیم ه و تیم و که هر دو مدعی قهرمانی هستند."
      "https://www.youtube.com/embed/dQw4w9WgXcQ";
    mkMatch 4 "تیم ز vs تیم ی" "۱۴۰۴/۰۱/۱۳" "۲۱:۳۰"
      "این مسابقه یکی از مهم‌ترین بازی‌های مرحله یک‌چهارم نهایی محسوب می‌شود."
      "https://www.youtube.com/embed/dQw4w9WgXcQ" ].

(** ** JavaScript numbers as the countdown uses them *)

Inductive JsNum :=
| Num (z : Z)
| NaN.

Module Js.

(** The double nearest to an integer: exact up to 53 bits, beyond that
    the significand is rounded to 53 bits, ties to even. *)
Definition round_double (z : Z) : Z :=
  let a := Z.abs z in
  let s := Z.log2 a - 52 in
  if s <=? 0 then z
  else
    let q := a `div` 2 ^ s in
    let r := a `mod` 2 ^ s in
    let half := 2 ^ (s - 1) in
    let q' := if (half <? r) || ((r =? half) && Z.odd q) then q + 1 else q in
    Z.sgn z * (q' * 2 ^ s).

(** [a - b]: the exact difference, rounded to a double. *)
Definition sub (a b : JsNum) : JsNum :=
  match a, b with
  | Num x, Num y => Num (round_double (x - y))
  | _, _ => NaN
  end.

(** [a < c] for an integer constant [c]; any comparison with NaN is false. *)
Definition lt (a : JsNum) (c : Z) : bool :=
  match a with
  | Num x => x <? c
  | NaN => false
  end.

(** [a % c]: the remainder takes the sign of the dividend. *)
Definition rem (a : JsNum) (c : Z) : JsNum :=
  match a with
  | Num x => Num (Z.rem x c)
  | NaN => NaN
  end.

(** [Math.floor(a / c)] for a positive integer constant [c].  The double
    quotient of a distance between two time values (at most 2 * 8.64e15,
    and even once it exceeds 2^53) by one of the script's constants never
    rounds up to the next integer, so its floor is the floor division. *)
Definition floor_div (a : JsNum) (c : Z) : JsNum :=
  match a with
  | Num x => Num (x `div` c)
  | NaN => NaN
  end.

(** The string a number becomes when assigned to [textContent]. *)
Definition to_string (a : JsNum) : string :=
  match a with
  | Num x => pretty x
  | NaN => "NaN"
  end.

End Js.

(** ** The document *)

(** Handlers the script registers with [addEventListener]. *)
Inductive Listener :=
| ShowDetailsOf (m : Match)   (* () => showMatchDetails(match.id) *)
| CloseOnClick                (* closeModal *)
| CloseOnBackdrop.            (* event => if (event.target === modal) closeModal() *)

(** A card built by [loadMatches]: the [div], its markup, and the handlers
    on the details link found inside that markup. *)
Record Card := mkCard {
  card_className : string;
  card_innerHTML : string;
  detailsBtn_listeners : list Listener
}.

Inductive Node :=
| Markup (html : string)
| Text (s : string)
| CardElem (c : Card).

Record Element := mkElement {
  display : string;             (* style.display *)
  children : list Node;
  listeners : list Listener     (* click listeners *)
}.

Definition nodes_of_string (mk : string -> Node) (s : string) : list Node :=
  match s with
  | EmptyString => []
  | _ => [mk s]
  end.

Definition set_innerHTML (s : string) (e : Element) : Element :=
  mkElement (display e) (nodes_of_string Markup s) (listeners e).

Definition set_textContent (s : string) (e : Element) : Element :=
  mkElement (display e) (nodes_of_string Text s) (listeners e).

Definition set_display (s : string) (e : Element) : Element :=
  mkElement s (children e) (listeners e).

Definition append_node (n : Node) (e : Element) : Element :=
  mkElement (display e) (children e ++ [n]) (listeners e).

Definition add_listener (l : Listener) (e : Element) : Element :=
  mkElement (display e) (children e) (listeners e ++ [l]).

(** ** The world: catalog, document, and the host's interval table *)

(** What the callback passed to [setInterval] closes over. *)
Record Timer := mkTimer {
  endDate : JsNum;
  countdownElement : string
}.

Record World := mkWorld {
  catalog : list Match;          (* the array bound to [matchesData] *)
  doc : gmap string Element;
  timers : gmap nat Timer;
  next_interval : nat
}.

Definition with_doc (f : gmap string Element -> gmap string Element)
    (w : World) : World :=
  mkWorld (catalog w) (f (doc w)) (timers w) (next_interval w).

Inductive JsError := TypeError.

(** How a computation ends: it returns, it throws, or it comes to markup
    that [Html.parse] gives no answer for ([Beyond]: what the browser does
    from there on is not determined here; [w] is the world up to there). *)
Inductive Outcome (A : Type) :=
| Returned (a : A) (w : World)
| Threw (e : JsError) (w : World)
| Beyond (w : World).
Arguments Returned {A} a w.
Arguments Threw {A} e w.
Arguments Beyond {A} w.

Definition world_of {A} (o : Outcome A) : World :=
  match o with
  | Returned _ w => w
  | Threw _ w => w
  | Beyond w => w
  end.

(** State and exceptions: a computation reads and writes the world and
    either returns or throws, keeping the writes made so far. *)
Definition M (A : Type) : Type := World -> Outcome A.

Definition ret {A} (a : A) : M A := fun w => Returned a w.
Definition throw {A} (e : JsError) : M A := fun w => Threw e w.
Definition beyond {A} : M A := fun w => Beyond w.
Definition bind {A B} (c : M A) (k : A -> M B) : M B :=
  fun w =>
    match c w with
    | Returned a w' => k a w'
    | Threw e w' => Threw e w'
    | Beyond w' => Beyond w'
    end.
Definition gets {A} (f : World -> A) : M A := fun w => Returned (f w) w.
Definition modify (f : World -> World) : M unit := fun w => Returned tt (f w).

Notation "'let*' x := c 'in' k" := (bind c (fun x => k))
  (at level 10, x name, c at level 100, k at level 200).
Notation "c ;;; k" := (bind c (fun _ => k))
  (at level 100, k at level 200, right associativity).

Fixpoint forEach {A} (l : list A) (f : A -> M unit) : M unit :=
  match l with
  | [] => ret tt
  | x :: l' => f x ;;; forEach l' f
  end.

(** *** DOM primitives *)

(** [document.getElementById(i)]: the reference, or [None] for [null]. *)
Definition getElementById (i : string) : M (option string) :=
  gets (fun w => match doc w !! i with Some _ => Some i | None => None end).

(** A property write through a possibly-null reference: [null.p = v]
    throws a TypeError. *)
Definition assign (r : option string) (f : Element -> Element) : M unit :=
  match r with
  | None => throw TypeError
  | Some i => modify (with_doc (alter f i))
  end.

Definition setInterval (t : Timer) : M nat :=
  fun w =>
    Returned (next_interval w)
      (mkWorld (catalog w) (doc w) (<[next_interval w := t]> (timers w))
         (S (next_interval w))).

Definition clearInterval (i : nat) : M unit :=
  modify (fun w =>
    mkWorld (catalog w) (doc w) (delete i (timers w)) (next_interval w)).

(** ** What the browser makes of assigned markup

    The HTML fragment parser (tokenizer and tree construction in the body
    mode), for the markup the script's templates are made of.  [parse]
    answers [Some] only where the answer is the browser's:
    - text is any character but [<], [&], NUL and CR;
    - a comment opens with [<!--] and ends as the standard's comment states
      say (at [-->], at [--!>], at an abrupt [>], or with the input); the
      text of a comment is not recorded;
    - a start tag is [<name], attributes [name="value"] or a bare [name]
      separated by white space, and [>]; the names are those of the
      templates, in lower case; a value is any character but the double
      quote, [&], NUL and CR, and a class value is lower case;
    - an element is opened only where the tree construction has nothing to
      repair (no p or heading inside an open p or heading, no formatting
      element inside one of its own name) and closed only by its own end
      tag while it is the current node, so that the tree is the nesting;
    - the content of an iframe is raw text up to [</iframe>];
    - at the end of the input the elements still open stay as they are.
    Anything else has no answer. *)

Module Html.
Import Stdlib.Strings.Ascii.

Local Unset Elimination Schemes.
Inductive node :=
| HText (s : string)
| HComment
| HElem (tag : string) (attrs : list (string * string)) (kids : list node).
Local Set Elimination Schemes.

(** *** Characters *)

Definition quote : ascii := Ascii.ascii_of_nat 34.

Definition code_in (lo hi : nat) (c : ascii) : bool :=
  (Nat.leb lo (Ascii.nat_of_ascii c) && Nat.leb (Ascii.nat_of_ascii c) hi)%bool.

Definition is_lower : ascii -> bool := code_in 97 122.
Definition is_digit : ascii -> bool := code_in 48 57.
Definition is_nul_or_cr (c : ascii) : bool :=
  (code_in 0 0 c || code_in 13 13 c)%bool.

(** TAB, LF, FF, space. *)
Definition is_ws (c : ascii) : bool :=
  (code_in 9 10 c || code_in 12 12 c || code_in 32 32 c)%bool.

Definition text_char (c : ascii) : bool :=
  negb (Ascii.eqb c "<" || Ascii.eqb c "&" || is_nul_or_cr c).

Definition value_char (c : ascii) : bool :=
  negb (Ascii.eqb c quote || Ascii.eqb c "&" || is_nul_or_cr c).

Definition raw_char (c : ascii) : bool :=
  negb (Ascii.eqb c "<" || is_nul_or_cr c).

Definition class_char (c : ascii) : bool :=
  (is_lower c || is_digit c || Ascii.eqb c "-" || Ascii.eqb c "_"
   || Ascii.eqb c " ")%bool.

Fixpoint all_chars (f : ascii -> bool) (s : string) : bool :=
  match s with
  | EmptyString => true
  | String c s' => f c && all_chars f s'
  end.

Definition snoc (s : string) (c : ascii) : string := s +:+ String c EmptyString.

Definition one_of (names : list string) (name : string) : bool :=
  existsb (String.eqb name) names.

(** *** Tree construction *)

(** An element that is open: its children so far, in order. *)
Record Frame := mkFrame {
  f_tag : string;
  f_attrs : list (string * string);
  f_kids : list node
}.

(** The stack of open elements, innermost first, and the nodes placed at
    the top level so far. *)
Record Builder := mkBuilder {
  open_elems : list Frame;
  roots : list node
}.

Definition text_nodes (s : string) : list node :=
  match s with
  | EmptyString => []
  | _ => [HText s]
  end.

(** Insert nodes as the last children of the current node. *)
Definition add_nodes (ns : list node) (b : Builder) : Builder :=
  match open_elems b with
  | [] => mkBuilder [] (roots b ++ ns)
  | f :: fs =>
      mkBuilder (mkFrame (f_tag f) (f_attrs f) (f_kids f ++ ns) :: fs) (roots b)
  end.

Definition is_open (tag : string) (b : Builder) : bool :=
  existsb (fun f => String.eqb (f_tag f) tag) (open_elems b).

Definition known_tag : string -> bool :=
  one_of ["h2"; "h3"; "p"; "strong"; "a"; "iframe"].

Definition known_attr : string -> bool :=
  one_of ["href"; "class"; "src"; "width"; "height"; "allowfullscreen"].

(** May the element be opened here with nothing to repair? *)
Definition may_open (tag : string) (b : Builder) : bool :=
  if one_of ["p"; "h2"; "h3"] tag
  then negb (is_open "p" b || is_open "h2" b || is_open "h3" b)
  else if one_of ["strong"; "a"] tag then negb (is_open tag b)
  else String.eqb tag "iframe".

Definition close_elem (tag : string) (b : Builder) : option Builder :=
  match open_elems b with
  | f :: fs =>
      if String.eqb (f_tag f) tag
      then Some (add_nodes [HElem tag (f_attrs f) (f_kids f)]
                   (mkBuilder fs (roots b)))
      else None
  | [] => None
  end.

(** The end of the input: the open elements stay in the tree as they are. *)
Fixpoint finish_frames (fs : list Frame) (pending roots : list node) : list node :=
  match fs with
  | [] => roots ++ pending
  | f :: fs' =>
      finish_frames fs' [HElem (f_tag f) (f_attrs f) (f_kids f ++ pending)] roots
  end.

Definition finish_builder (b : Builder) : list node :=
  finish_frames (open_elems b) [] (roots b).

(** *** Tokenizer states *)

Inductive Lex :=
| Data (txt : string)
| TagOpen
| MarkupDecl
| MarkupDeclDash
| CommentStart
| CommentStartDash
| Comment
| CommentEndDash
| CommentEnd
| CommentEndBang
| TagName (name : string)
| EndTagOpen
| EndTagName (name : string)
| BeforeAttrName (tag : string) (attrs : list (string * string))
| AttrName (tag : string) (attrs : list (string * string)) (name : string)
| BeforeAttrValue (tag : string) (attrs : list (string * string)) (name : string)
| AttrValue (tag : string) (attrs : list (string * string)) (name val : string)
| AfterAttrValue (tag : string) (attrs : list (string * string))
| RawText (txt : string)
| RawTextEnd (rest : string).

Definition State : Type := Lex * Builder.

Definition add_attr (attrs : list (string * string)) (name val : string)
    : option (list (string * string)) :=
  if negb (known_attr name) then None
  else if one_of (map fst attrs) name then None
  else if String.eqb name "class" && negb (all_chars class_char val) then None
  else Some (attrs ++ [(name, val)]).

Definition emit_start (tag : string) (attrs : list (string * string))
    (b : Builder) : option State :=
  if known_tag tag && may_open tag b
  then Some (if String.eqb tag "iframe" then RawText EmptyString
             else Data EmptyString,
             mkBuilder (mkFrame tag attrs [] :: open_elems b) (roots b))
  else None.

Definition emit_end (tag : string) (b : Builder) : option State :=
  if known_tag tag
  then match close_elem tag b with
       | Some b' => Some (Data EmptyString, b')
       | None => None
       end
  else None.

Definition emit_comment (b : Builder) : option State :=
  Some (Data EmptyString, add_nodes [HComment] b).

Definition step (st : State) (c : ascii) : option State :=
  let '(lx, b) := st in
  match lx with
  | Data txt =>
      if text_char c then Some (Data (snoc txt c), b)
      else if Ascii.eqb c "<" then Some (TagOpen, add_nodes (text_nodes txt) b)
      else None
  | TagOpen =>
      if Ascii.eqb c "!" then Some (MarkupDecl, b)
      else if Ascii.eqb c "/" then Some (EndTagOpen, b)
      else if is_lower c then Some (TagName (String c EmptyString), b)
      else None
  | MarkupDecl => if Ascii.eqb c "-" then Some (MarkupDeclDash, b) else None
  | MarkupDeclDash => if Ascii.eqb c "-" then Some (CommentStart, b) else None
  | CommentStart =>
      if Ascii.eqb c "-" then Some (CommentStartDash, b)
      else if Ascii.eqb c ">" then emit_comment b
      else Some (Comment, b)
  | CommentStartDash =>
      if Ascii.eqb c "-" then Some (CommentEnd, b)
      else if Ascii.eqb c ">" then emit_comment b
      else Some (Comment, b)
  | Comment =>
      if Ascii.eqb c "-" then Some (CommentEndDash, b) else Some (Comment, b)
  | CommentEndDash =>
      if Ascii.eqb c "-" then Some (CommentEnd, b) else Some (Comment, b)
  | CommentEnd =>
      if Ascii.eqb c ">" then emit_comment b
      else if Ascii.eqb c "!" then Some (CommentEndBang, b)
      else if Ascii.eqb c "-" then Some (CommentEnd, b)
      else Some (Comment, b)
  | CommentEndBang =>
      if Ascii.eqb c "-" then Some (CommentEndDash, b)
      else if Ascii.eqb c ">" then emit_comment b
      else Some (Comment, b)
  | TagName name =>
      if is_lower c || is_digit c then Some (TagName (snoc name c), b)
      else if Ascii.eqb c ">" then emit_start name [] b
      else if is_ws c && known_tag name then Some (BeforeAttrName name [], b)
      else None
  | EndTagOpen =>
      if is_lower c then Some (EndTagName (String c EmptyString), b) else None
  | EndTagName name =>
      if is_lower c || is_digit c then Some (EndTagName (snoc name c), b)
      else if Ascii.eqb c ">" then emit_end name b
      else None
  | BeforeAttrName tag attrs =>
      if is_ws c then Some (BeforeAttrName tag attrs, b)
      else if Ascii.eqb c ">" then emit_start tag attrs b
      else if is_lower c then Some (AttrName tag attrs (String c EmptyString), b)
      else None
  | AttrName tag attrs name =>
      if is_lower c then Some (AttrName tag attrs (snoc name c), b)
      else if Ascii.eqb c "=" then Some (BeforeAttrValue tag attrs name, b)
      else if Ascii.eqb c ">" then
        match add_attr attrs name EmptyString with
        | Some attrs' => emit_start tag attrs' b
        | None => None
        end
      else None
  | BeforeAttrValue tag attrs name =>
      if Ascii.eqb c quote then Some (AttrValue tag attrs name EmptyString, b)
      else None
  | AttrValue tag attrs name val =>
      if Ascii.eqb c quote then
        match add_attr attrs name val with
        | Some attrs' => Some (AfterAttrValue tag attrs', b)
        | None => None
        end
      else if value_char c then Some (AttrValue tag attrs name (snoc val c), b)
      else None
  | AfterAttrValue tag attrs =>
      if is_ws c then Some (BeforeAttrName tag attrs, b)
      else if Ascii.eqb c ">" then emit_start tag attrs b
      else None
  | RawText txt =>
      if raw_char c then Some (RawText (snoc txt c), b)
      else if Ascii.eqb c "<"
      then Some (RawTextEnd "/iframe>", add_nodes (text_nodes txt) b)
      else None
  | RawTextEnd rest =>
      match rest with
      | String r rest' =>
          if Ascii.eqb c r then
            match rest' with
            | EmptyString => emit_end "iframe" b
            | _ => Some (RawTextEnd rest', b)
            end
          else None
      | EmptyString => None
      end
  end.

(** The end of the input. *)
Definition finish (st : State) : option (list node) :=
  let '(lx, b) := st in
  match lx with
  | Data txt => Some (finish_builder (add_nodes (text_nodes txt) b))
  | CommentStart | CommentStartDash | Comment
  | CommentEndDash | CommentEnd | CommentEndBang =>
      Some (finish_builder (add_nodes [HComment] b))
  | _ => None
  end.

Fixpoint steps (st : State) (s : string) : option State :=
  match s with
  | EmptyString => Some st
  | String c s' =>
      match step st c with
      | Some st' => steps st' s'
      | None => None
      end
  end.

Fixpoint run (st : State) (s : string) : option (list node) :=
  match s with
  | EmptyString => finish st
  | String c s' =>
      match step st c with
      | Some st' => run st' s'
      | None => None
      end
  end.

Definition start : State := (Data EmptyString, mkBuilder [] []).

(** The children an element gets when [s] is assigned to its [innerHTML]. *)
Definition parse (s : string) : option (list node) := run start s.

(** *** Selecting by class *)

Definition token (cur : string) : list string :=
  match cur with
  | EmptyString => []
  | _ => [cur]
  end.

(** The tokens of a class attribute: its pieces between white space. *)
Fixpoint split_ws (cur : string) (s : string) : list string :=
  match s with
  | EmptyString => token cur
  | String c s' =>
      if is_ws c || code_in 13 13 c
      then token cur ++ split_ws EmptyString s'
      else split_ws (snoc cur c) s'
  end.

Definition attr_value (name : string) (attrs : list (string * string))
    : option string :=
  snd <$> List.find (fun a => String.eqb (fst a) name) attrs.

Definition has_class (cls : string) (attrs : list (string * string)) : bool :=
  match attr_value "class" attrs with
  | Some v => one_of (split_ws EmptyString v) cls
  | None => false
  end.

(** Is the node, or one of its descendants, an element of class [cls]? *)
Fixpoint has_match (cls : string) (n : node) : bool :=
  match n with
  | HElem _ attrs kids =>
      has_class cls attrs ||
      (fix any (ks : list node) : bool :=
         match ks with
         | [] => false
         | k :: ks' => has_match cls k || any ks'
         end) kids
  | _ => false
  end.

(** [querySelector("." + cls)] finds something among these nodes. *)
Definition query_class (cls : string) (ns : list node) : bool :=
  existsb (has_match cls) ns.

End Html.

(** ** loadMatches (script.js, lines 40-67) *)

Definition h3_line (s : string) : string := "<h3>" +:+ s +:+ "</h3>".
Definition date_line (s : string) : string :=
  "<p><strong>تاریخ:</strong> " +:+ s +:+ "</p>".
Definition time_line (s : string) : string :=
  "<p><strong>ساعت:</strong> " +:+ s +:+ "</p>".
Definition details_link : string :=
  "<a href=" +:+ Str.dq +:+ "javascript:void(0)" +:+ Str.dq +:+ " " +:+
  ("class=" +:+ Str.dq +:+ "btn-match-details" +:+ Str.dq) +:+
  ">جزئیات</a>".

(** The template literal of lines 52-57, with its line breaks and indentation. *)
Definition card_markup (m : Match) : string :=
  Str.nl +:+ "      " +:+ h3_line (teams m) +:+
  Str.nl +:+ "      " +:+ date_line (date m) +:+
  Str.nl +:+ "      " +:+ time_line (time m) +:+
  Str.nl +:+ "      " +:+ details_link +:+
  Str.nl +:+ "    ".

(** [card.querySelector("." + cls)]: does the card, as parsed from its
    markup, contain an element of class [cls] ([Some false] is the script's
    [null])?  No answer where the markup has no parse here. *)
Definition querySelector_class (cls : string) (c : Card) : option bool :=
  Html.query_class cls <$> Html.parse (card_innerHTML c).

(** [document.createElement("div")] *)
Definition createElement_div : Card := mkCard "" "" [].

(** The body of the [forEach] callback up to [appendChild]: the card it
    builds, or a TypeError when the details link is not found
    ([null.addEventListener], line 61). *)
Definition build_card (m : Match) : M Card :=
  let card := createElement_div in
  let card := mkCard "match-card" (card_innerHTML card) (detailsBtn_listeners card) in
  let card := mkCard (card_className card) (card_markup m) (detailsBtn_listeners card) in
  match querySelector_class "btn-match-details" card with
  | Some true =>
      ret (mkCard (card_className card) (card_innerHTML card)
             (detailsBtn_listeners card ++ [ShowDetailsOf m]))
  | Some false => throw TypeError
  | None => beyond
  end.

Definition loadMatches : M unit :=
  let* container := getElementById "matches-container" in
  match container with
  | None => ret tt
  | Some _ =>
      assign container (set_innerHTML "") ;;;
      let* ms := gets catalog in
      forEach ms (fun m =>
        let* card := build_card m in
        assign container (append_node (CardElem card)))
  end.

(** ** showMatchDetails (script.js, lines 73-98) *)

(** The template literal of lines 81-93. *)
Definition iframe_open (link : string) : string :=
  "<iframe " +:+ Str.nl +:+ "      src=" +:+ Str.dq +:+ link +:+ Str.dq.

Definition details_markup (m : Match) : string :=
  Str.nl +:+ "    " +:+ ("<h2>" +:+ teams m +:+ "</h2>") +:+
  Str.nl +:+ "    " +:+ date_line (date m) +:+
  Str.nl +:+ "    " +:+ time_line (time m) +:+
  Str.nl +:+ "    " +:+ ("<p>" +:+ description m +:+ "</p>") +:+
  Str.nl +:+ "    <h3>پخش زنده</h3>" +:+
  Str.nl +:+ "    " +:+ iframe_open (liveStreamLink m) +:+ " " +:+
  Str.nl +:+ "      width=" +:+ Str.dq +:+ "100%" +:+ Str.dq +:+ " " +:+
  Str.nl +:+ "      height=" +:+ Str.dq +:+ "360" +:+ Str.dq +:+ " " +:+
  Str.nl +:+ "      allowfullscreen>" +:+
  Str.nl +:+ "    </iframe>" +:+
  Str.nl +:+ "  ".

(** [matchesData.find(m => m.id === matchId)] *)
Definition find_match (matchId : Z) (ms : list Match) : option Match :=
  List.find (fun m => id m =? matchId) ms.

Definition showMatchDetails (matchId : Z) : M unit :=
  let* ms := gets catalog in
  match find_match matchId ms with
  | None => ret tt
  | Some m =>
      let* matchDetailsEl := getElementById "match-details" in
      assign matchDetailsEl (set_innerHTML (details_markup m)) ;;;
      let* modal := getElementById "match-modal" in
      assign modal (set_display "block")
  end.

(** ** closeModal (script.js, lines 103-108) *)

Definition closeModal : M unit :=
  let* modal := getElementById "match-modal" in
  assign modal (set_display "none") ;;;
  let* details := getElementById "match-details" in
  assign details (set_innerHTML "").

(** ** startCountdown (script.js, lines 114-140) *)

Definition started_markup : string := "<p>بازی شروع شده است!</p>".

Definition ms_per_day : Z := 1000 * 60 * 60 * 24.
Definition ms_per_hour : Z := 1000 * 60 * 60.
Definition ms_per_minute : Z := 1000 * 60.

(** [document.getElementById(slot).textContent = v] *)
Definition write_text (slot : string) (v : JsNum) : M unit :=
  let* e := getElementById slot in
  assign e (set_textContent (Js.to_string v)).

(** The interval callback (lines 120-139); [interval] is the id the
    callback closes over, [now] the clock reading of this tick. *)
Definition tick (interval : nat) (t : Timer) (now : Z) : M unit :=
  let distance := Js.sub (endDate t) (Num now) in
  if Js.lt distance 0 then
    clearInterval interval ;;;
    assign (Some (countdownElement t)) (set_innerHTML started_markup)
  else
    let days := Js.floor_div distance ms_per_day in
    let hours := Js.floor_div (Js.rem distance ms_per_day) ms_per_hour in
    let minutes := Js.floor_div (Js.rem distance ms_per_hour) ms_per_minute in
    let seconds := Js.floor_div (Js.rem distance ms_per_minute) 1000 in
    write_text "days" days ;;;
    write_text "hours" hours ;;;
    write_text "minutes" minutes ;;;
    write_text "seconds" seconds.

(** [startCountdown(dateString)], given the value [end_] of
    [new Date(dateString).getTime()]. *)
Definition startCountdown (end_ : JsNum) : M unit :=
  let* el := getElementById "countdown-timer" in
  match el with
  | None => ret tt
  | Some r =>
      let* _i := setInterval (mkTimer end_ r) in
      ret tt
  end.

(** The host runs the callback of an interval only while it is registered. *)
Definition fire (interval : nat) (now : Z) : M unit :=
  fun w =>
    match timers w !! interval with
    | None => Returned tt w
    | Some t => tick interval t now w
    end.

(** ** Wiring and the event loop (script.js, lines 143-157) *)

(** [element.addEventListener("click", l)] behind an [if (element)] guard. *)
Definition addEventListener_if_present (r : option string) (l : Listener) : M unit :=
  match r with
  | None => ret tt
  | Some _ => assign r (add_listener l)
  end.

(** The DOMContentLoaded handler. *)
Definition onDOMContentLoaded : M unit :=
  let* closeBtn := getElementById "close-modal" in
  addEventListener_if_present closeBtn CloseOnClick ;;;
  let* modal := getElementById "match-modal" in
  addEventListener_if_present modal CloseOnBackdrop.

(** Running one registered handler; [on_itself] says whether the event's
    target is the element the handler is registered on. *)
Definition run_listener (l : Listener) (on_itself : bool) : M unit :=
  match l with
  | ShowDetailsOf m => showMatchDetails (id m)
  | CloseOnClick => closeModal
  | CloseOnBackdrop => if on_itself then closeModal else ret tt
  end.

(** Handlers run to completion one after another; an exception ends the
    handler that threw and the writes it made stay. *)
Definition dispatch (ls : list Listener) (on_itself : bool) (w : World) : World :=
  fold_left (fun w l => world_of (run_listener l on_itself w)) ls w.

Inductive Event :=
| PageReady
| Call_loadMatches
| Call_showMatchDetails (matchId : Z)
| Call_closeModal
| Call_startCountdown (end_ : JsNum)
| ClickDetails (n : nat)
| Click (el : string) (on_itself : bool)
| IntervalFires (interval : nat) (now : Z).

Definition handle (ev : Event) (w : World) : World :=
  match ev with
  | PageReady => world_of (onDOMContentLoaded w)
  | Call_loadMatches => world_of (loadMatches w)
  | Call_showMatchDetails i => world_of (showMatchDetails i w)
  | Call_closeModal => world_of (closeModal w)
  | Call_startCountdown e => world_of (startCountdown e w)
  | ClickDetails n =>
      match doc w !! "matches-container" with
      | Some c =>
          match children c !! n with
          | Some (CardElem card) => dispatch (detailsBtn_listeners card) true w
          | _ => w
          end
      | None => w
      end
  | Click el on_itself =>
      match doc w !! el with
      | Some e => dispatch (listeners e) on_itself w
      | None => w
      end
  | IntervalFires i now => world_of (fire i now w)
  end.

Definition run (evs : list Event) (w : World) : World :=
  fold_left (fun w ev => handle ev w) evs w.

(** The page as the script finds it: the catalog of the source, a document,
    no interval registered yet. *)
Definition initial_world (d : gmap string Element) : World :=
  mkWorld matchesData d ∅ 1.

(** ** Vocabulary of the statements *)

(** The card [build_card] hands to [appendChild]. *)
Definition rendered_card (m : Match) : Card :=
  mkCard "match-card" (card_markup m) [ShowDetailsOf m].

(** Text the parser reads as text, and as an attribute value. *)
Definition plain_text (s : string) : bool := Html.all_chars Html.text_char s.
Definition plain_value (s : string) : bool := Html.all_chars Html.value_char s.

(** A record whose teams, date and time are plain text: what a card needs. *)
Definition plain_card (m : Match) : Prop :=
  plain_text (teams m) = true ∧ plain_text (date m) = true ∧
  plain_text (time m) = true.

(** A record whose description is plain text too and whose stream link is
    a plain attribute value: what the modal needs. *)
Definition plain_details (m : Match) : Prop :=
  plain_card m ∧ plain_text (description m) = true ∧
  plain_value (liveStreamLink m) = true.

(** The text children of an element whose content is the text [s]. *)
Definition text_of (s : string) : list Html.node :=
  match s with
  | EmptyString => []
  | String _ _ => [Html.HText s]
  end.

(** A line break followed by [n] spaces. *)
Definition indent (n : nat) : string :=
  String (Ascii.ascii_of_nat 10) (String.concat EmptyString (repeat " " n)).

(** The details link of a card, as an element. *)
Definition details_anchor : Html.node :=
  Html.HElem "a"
    [("href", "javascript:void(0)"); ("class", "btn-match-details")]
    [Html.HText "جزئیات"].

(** What a card shows of a record: a heading with the teams, a paragraph
    with the date, a paragraph with the time, and the details link. *)
Definition card_view (m : Match) : list Html.node :=
  [ Html.HText (indent 6);
    Html.HElem "h3" [] (text_of (teams m));
    Html.HText (indent 6);
    Html.HElem "p" []
      [Html.HElem "strong" [] [Html.HText "تاریخ:"]; Html.HText (" " +:+ date m)];
    Html.HText (indent 6);
    Html.HElem "p" []
      [Html.HElem "strong" [] [Html.HText "ساعت:"]; Html.HText (" " +:+ time m)];
    Html.HText (indent 6);
    details_anchor;
    Html.HText (indent 4) ].

(** What the modal shows of a record: a heading with the teams, the date
    and time paragraphs, the description, the stream heading, and a frame
    whose source is the stream link. *)
Definition details_view (m : Match) : list Html.node :=
  [ Html.HText (indent 4);
    Html.HElem "h2" [] (text_of (teams m));
    Html.HText (indent 4);
    Html.HElem "p" []
      [Html.HElem "strong" [] [Html.HText "تاریخ:"]; Html.HText (" " +:+ date m)];
    Html.HText (indent 4);
    Html.HElem "p" []
      [Html.HElem "strong" [] [Html.HText "ساعت:"]; Html.HText (" " +:+ time m)];
    Html.HText (indent 4);
    Html.HElem "p" [] (text_of (description m));
    Html.HText (indent 4);
    Html.HElem "h3" [] [Html.HText "پخش زنده"];
    Html.HText (indent 4);
    Html.HElem "iframe"
      [("src", liveStreamLink m); ("width", "100%"); ("height", "360");
       ("allowfullscreen", EmptyString)]
      [Html.HText (indent 4)];
    Html.HText (indent 2) ].

(** Is the node, or one of its descendants, a frame whose source is [src]? *)
Fixpoint has_frame (src : string) (n : Html.node) : bool :=
  match n with
  | Html.HElem tag attrs kids =>
      (String.eqb tag "iframe" &&
       match Html.attr_value "src" attrs with
       | Some v => String.eqb v src
       | None => false
       end) ||
      (fix any (ks : list Html.node) : bool :=
         match ks with
         | [] => false
         | k :: ks' => has_frame src k || any ks'
         end) kids
  | _ => false
  end.

(** A valid time value: at most 8.64e15 milliseconds from the epoch. *)
Definition time_value (z : Z) : Prop := Z.abs z ≤ 8640000000000000.

(** ** Sample pages *)

Definition blank : Element := mkElement "" [] [].

(** A page with every element the script looks up. *)
Definition full_page : gmap string Element :=
  list_to_map
    [ ("matches-container", blank); ("match-modal", blank);
      ("match-details", blank); ("close-modal", blank);
      ("countdown-timer", blank); ("days", blank); ("hours", blank);
      ("minutes", blank); ("seconds", blank) ].

(** The page with the modal opened on the first record. *)
Definition opened_world : World :=
  world_of (showMatchDetails 1 (initial_world full_page)).

(** A page whose countdown runs towards the instant [target]. *)
Definition counting_world (target : Z) : World :=
  world_of (startCountdown (Num target) (initial_world full_page)).

(** The text a display slot holds in a world. *)
Definition slot_text (slot : string) (w : World) : option (list Node) :=
  children <$> doc w !! slot.

(** [respects R c]: whatever world [c] starts in, the world it ends in
    (returning or throwing) is related to it by [R]. *)
Definition respects (R : World → World → Prop) {A} (c : M A) : Prop :=
  ∀ w, R w (world_of (c w)).

(** Worlds the page can be in: an initial page followed by events. *)
Definition reachable (w : World) : Prop :=
  ∃ (d : gmap string Element) (evs : list Event), w = run evs (initial_world d).

(** What holds of the interval table in every reachable world: registered
    ids are below the next id to hand out, and every callback holds the
    countdown container, which is in the document. *)
Definition timers_ok (w : World) : Prop :=
  ∀ (j : nat) (t : Timer),
    timers w !! j = Some t →
    (j < next_interval w)%nat ∧
    countdownElement t = "countdown-timer" ∧
    is_Some (doc w !! "countdown-timer").

(** A tick that is not terminal leaves the interval table and the countdown
    container as they were. *)
Definition keeps_countdown (w w' : World) : Prop :=
  timers w' = timers w ∧
  doc w' !! "countdown-timer" = doc w !! "countdown-timer".


(** A page with the card container only: no modal, no countdown. *)
Definition cards_only_page : gmap string Element :=
  {[ "matches-container" := blank ]}.

(** A record whose teams field opens a comment, and a page with it as the
    whole catalog. *)
Definition comment_record : Match :=
  mkMatch 1 "<!--" "2025-01-01" "20:00" "final" "https://example.com/embed/x".

Definition comment_world : World :=
  mkWorld [comment_record] full_page ∅ 1.

(** The sample page with two countdowns started and the ready handler run. *)
Definition two_countdowns_world : World :=
  run [PageReady; Call_startCountdown (Num 100000);
       Call_startCountdown (Num 500000)] (initial_world full_page).

(** The sample page wired, with a countdown running and the modal opened
    on the first record. *)
Definition busy_world : World :=
  run [PageReady; Call_startCountdown (Num 100000); Call_showMatchDetails 1]
    (initial_world full_page).

(** The one-record catalog of the specification's end-to-end scenario. *)
Definition scenario_record : Match :=
  mkMatch 1 "A vs B" "2025-01-01" "20:00" "final" "https://example.com/embed/x".

Definition scenario_world : World :=
  mkWorld [scenario_record] full_page ∅ 1.

(** ** Vocabulary of the further properties *)

(** Events that concern the countdown: starting one, and an interval firing. *)
Definition timer_event (ev : Event) : bool :=
  match ev with
  | Call_startCountdown _ | IntervalFires _ _ => true
  | _ => false
  end.

(** The sample page once the ready handler has run. *)
Definition wired_world : World := handle PageReady (initial_world full_page).



(** A page with the countdown container but none of the four slots. *)
Definition slotless_page : gmap string Element :=
  {[ "countdown-timer" := blank ]}.

(** The slotless page with a countdown started on it. *)
Definition slotless_counting_world : World :=
  world_of (startCountdown (Num 100000) (initial_world slotless_page)).

(** The sample page with a countdown started on an invalid date. *)
Definition nan_counting_world : World :=
  world_of (startCountdown NaN (initial_world full_page)).

(** * Properties *)

(** ** Strings *)

Lemma append_snoc (a s : string) (c : Ascii.ascii) :
  Html.snoc a c +:+ s = a +:+ String c s.
Proof.
  unfold Html.snoc. induction a as [|x a IH]; [done|].
  change (String x ((a +:+ String c EmptyString) +:+ s)
          = String x (a +:+ String c s)).
  by rewrite IH.
Qed.

Lemma append_assoc (a b c : string) : (a +:+ b) +:+ c = a +:+ (b +:+ c).
Proof.
  induction a as [|x a IH]; [done|].
  change (String x ((a +:+ b) +:+ c) = String x (a +:+ (b +:+ c))).
  by rewrite IH.
Qed.

Lemma append_empty (a : string) : a +:+ EmptyString = a.
Proof.
  induction a as [|x a IH]; [done|].
  change (String x (a +:+ EmptyString) = String x a). by rewrite IH.
Qed.

(** ** The parser on the templates *)

Lemma run_app (st : Html.State) (a b : string) :
  Html.run st (a +:+ b)
  = match Html.steps st a with
    | Some st' => Html.run st' b
    | None => None
    end.
Proof.
  revert st. induction a as [|c a IH]; intros st; [done|].
  change (String c a +:+ b) with (String c (a +:+ b)). cbn [Html.run Html.steps].
  destruct (Html.step st c) as [st'|]; [apply IH | done].
Qed.

Lemma steps_text (txt s : string) (b : Html.Builder) :
  plain_text s = true →
  Html.steps (Html.Data txt, b) s = Some (Html.Data (txt +:+ s), b).
Proof.
  unfold plain_text. revert txt.
  induction s as [|c s IH]; intros txt H.
  - cbn. by rewrite append_empty.
  - cbn [Html.all_chars] in H. apply andb_true_iff in H as [Hc Hs].
    cbn [Html.steps Html.step]. rewrite Hc.
    rewrite (IH _ Hs). by rewrite append_snoc.
Qed.

Lemma steps_value (tag name val s : string) (attrs : list (string * string))
    (b : Html.Builder) :
  plain_value s = true →
  Html.steps (Html.AttrValue tag attrs name val, b) s
  = Some (Html.AttrValue tag attrs name (val +:+ s), b).
Proof.
  unfold plain_value. revert val.
  induction s as [|c s IH]; intros val H.
  - cbn. by rewrite append_empty.
  - cbn [Html.all_chars] in H. apply andb_true_iff in H as [Hc Hs].
    assert (Hq : Ascii.eqb c Html.quote = false).
    { unfold Html.value_char in Hc. apply negb_true_iff in Hc.
      by apply orb_false_iff in Hc as [[? _]%orb_false_iff _]. }
    cbn [Html.steps Html.step]. rewrite Hq, Hc.
    rewrite (IH _ Hs). by rewrite append_snoc.
Qed.

(** One piece of a template: a field, by the lemmas above, or literal
    markup, by running the parser on it. *)
Ltac lex_piece :=
  rewrite run_app;
  first
    [ rewrite steps_text by assumption
    | rewrite steps_value by assumption
    | lazymatch goal with
      | |- context [Html.steps ?st ?l] =>
          let r := eval vm_compute in (Html.steps st l) in
          change (Html.steps st l) with r
      end ];
  cbv beta iota.

Lemma text_nodes_text_of (s : string) : Html.text_nodes s = text_of s.
Proof. by destruct s. Qed.

Lemma parse_card_markup (m : Match) :
  plain_card m → Html.parse (card_markup m) = Some (card_view m).
Proof.
  intros (Hteams & Hdate & Htime).
  unfold Html.parse, Html.start, card_markup, h3_line, date_line, time_line,
    details_link, Str.nl, Str.dq.
  rewrite !append_assoc.
  repeat lex_piece.
  vm_compute. reflexivity.
Qed.

Lemma parse_details_markup (m : Match) :
  plain_details m → Html.parse (details_markup m) = Some (details_view m).
Proof.
  intros ((Hteams & Hdate & Htime) & Hdesc & Hlink).
  unfold Html.parse, Html.start, details_markup, iframe_open, date_line,
    time_line, Str.nl, Str.dq.
  rewrite !append_assoc.
  repeat lex_piece.
  vm_compute. reflexivity.
Qed.

Lemma query_card_view (m : Match) :
  Html.query_class "btn-match-details" (card_view m) = true.
Proof.
  apply existsb_exists. exists details_anchor. split; [|reflexivity].
  unfold card_view. cbn. tauto.
Qed.

(** ** Document updates *)

Lemma alter_as_insert (f : Element → Element) (i : string) (e : Element)
    (d : gmap string Element) :
  d !! i = Some e → alter f i d = <[i := f e]> d.
Proof.
  intros H. apply map_eq. intros j.
  destruct (decide (i = j)) as [<-|Hne].
  - by rewrite lookup_alter_eq, lookup_insert_eq, H.
  - by rewrite lookup_alter_ne, lookup_insert_ne.
Qed.

Lemma getElementById_present (i : string) (e : Element) (w : World) :
  doc w !! i = Some e → getElementById i w = Returned (Some i) w.
Proof. intros H. unfold getElementById, gets. by rewrite H. Qed.

Lemma getElementById_absent (i : string) (w : World) :
  doc w !! i = None → getElementById i w = Returned None w.
Proof. intros H. unfold getElementById, gets. by rewrite H. Qed.

Lemma assign_present (f : Element → Element) (i : string) (e : Element)
    (w : World) :
  doc w !! i = Some e →
  assign (Some i) f w = Returned tt (with_doc (insert i (f e)) w).
Proof.
  intros H. unfold assign, modify, with_doc.
  by rewrite (alter_as_insert f i e).
Qed.

(** ** loadMatches *)

Lemma build_card_returns (m : Match) (w : World) :
  plain_card m → build_card m w = Returned (rendered_card m) w.
Proof.
  intros Hm. unfold build_card, querySelector_class;
    cbn [card_innerHTML card_className detailsBtn_listeners createElement_div].
  rewrite (parse_card_markup m Hm). cbn [fmap option_fmap option_map].
  by rewrite query_card_view.
Qed.

Lemma forEach_appends (c : string) (ms : list Match) :
  Forall plain_card ms →
  ∀ (w : World) (e : Element),
    doc w !! c = Some e →
    forEach ms (fun m =>
      let* card := build_card m in
      assign (Some c) (append_node (CardElem card))) w
    = Returned tt
        (with_doc (insert c
           (mkElement (display e)
              (children e ++ map (fun m => CardElem (rendered_card m)) ms)
              (listeners e))) w).
Proof.
  induction 1 as [|m ms Hm Hms IH]; intros w e He.
  - cbn [forEach map]. unfold ret. f_equal.
    rewrite app_nil_r. unfold with_doc.
    destruct w as [cat d ts nx], e as [dsp ch ls]; cbn in *.
    by rewrite insert_id.
  - cbn [forEach map]. unfold bind at 1 2.
    rewrite (build_card_returns m w Hm), (assign_present _ c e w He).
    rewrite (IH _ (append_node (CardElem (rendered_card m)) e)).
    + f_equal. unfold with_doc; cbn.
      by rewrite insert_insert_eq, <- app_assoc.
    + cbn. apply lookup_insert_eq.
Qed.

Lemma loadMatches_present (w : World) (e : Element) :
  Forall plain_card (catalog w) →
  doc w !! "matches-container" = Some e →
  loadMatches w = Returned tt
    (with_doc (insert "matches-container"
       (mkElement (display e)
          (map (fun m => CardElem (rendered_card m)) (catalog w))
          (listeners e))) w).
Proof.
  intros Hplain He. unfold loadMatches. unfold bind at 1.
  rewrite (getElementById_present _ e w He).
  unfold bind at 1. rewrite (assign_present _ _ e w He).
  unfold bind at 1, gets at 1.
  rewrite (forEach_appends _ _ Hplain _ (set_innerHTML "" e)).
  - f_equal. unfold with_doc; cbn. by rewrite insert_insert_eq.
  - cbn. apply lookup_insert_eq.
Qed.

Lemma matchesData_plain : Forall plain_details matchesData.
Proof. repeat constructor. Qed.

Lemma matchesData_plain_cards : Forall plain_card matchesData.
Proof. repeat constructor. Qed.

(** With the catalog of the source every card's markup has a parse: on any
    page loadMatches returns, it neither throws nor ends as [Beyond]. *)
Lemma loadMatches_source_catalog (d : gmap string Element) :
  ∃ w' : World, loadMatches (initial_world d) = Returned tt w'.
Proof.
  destruct (d !! "matches-container") as [e|] eqn:He.
  - eexists.
    apply (loadMatches_present (initial_world d) e matchesData_plain_cards He).
  - exists (initial_world d). unfold loadMatches, bind.
    by rewrite (getElementById_absent _ (initial_world d) He).
Qed.

(** C1: with the container present and a catalog whose teams, dates and
    times are plain text, loadMatches returns normally and leaves in the
    container exactly one card per catalog record, in catalog order; the
    n-th card is a match card that parses to a heading with the n-th
    record's teams, a paragraph with its date, a paragraph with its time and
    the details link, whose click handler is bound to that record. *)
Theorem loadMatches_renders_catalog (w : World) (e : Element) :
  doc w !! "matches-container" = Some e →
  Forall plain_card (catalog w) →
  ∃ (w' : World) (e' : Element),
    loadMatches w = Returned tt w' ∧
    doc w' !! "matches-container" = Some e' ∧
    length (children e') = length (catalog w) ∧
    ∀ (n : nat) (m : Match),
      catalog w !! n = Some m →
      ∃ card : Card,
        children e' !! n = Some (CardElem card) ∧
        card_className card = "match-card" ∧
        Html.parse (card_innerHTML card) = Some (card_view m) ∧
        detailsBtn_listeners card = [ShowDetailsOf m].
Proof.
  intros He Hplain. eexists _, _.
  split; [apply (loadMatches_present w e Hplain He)|].
  split; [cbn; apply lookup_insert_eq|].
  cbn [children]. split; [by rewrite length_map|].
  intros n m Hm. exists (rendered_card m). split.
  - by rewrite list_lookup_fmap, Hm.
  - split; [done|]. split; [|done]. apply parse_card_markup.
    eapply Forall_forall; [exact Hplain|].
    apply list_elem_of_lookup. by exists n.
Qed.

Lemma loadMatches_renders_catalog_witness :
  doc (initial_world full_page) !! "matches-container" = Some blank ∧
  Forall plain_card (catalog (initial_world full_page)) ∧
  ∃ (w' : World) (e' : Element),
    loadMatches (initial_world full_page) = Returned tt w' ∧
    doc w' !! "matches-container" = Some e' ∧
    length (children e') = length (catalog (initial_world full_page)) ∧
    ∀ (n : nat) (m : Match),
      catalog (initial_world full_page) !! n = Some m →
      ∃ card : Card,
        children e' !! n = Some (CardElem card) ∧
        card_className card = "match-card" ∧
        Html.parse (card_innerHTML card) = Some (card_view m) ∧
        detailsBtn_listeners card = [ShowDetailsOf m].
Proof.
  assert (Hplain : Forall plain_card (catalog (initial_world full_page))).
  { repeat constructor. }
  split; [reflexivity|]. split; [exact Hplain|].
  apply (loadMatches_renders_catalog (initial_world full_page) blank);
    [reflexivity | exact Hplain].
Defined.

(** C1 as the specification states it, for every catalog, fails: with the
    one-record catalog whose teams field is "<!--" the rest of the card's
    markup is a comment, the details link is not found, and loadMatches
    throws at the first record, leaving no card for a catalog of size 1. *)
Lemma loadMatches_renders_catalog_counterexample :
  doc comment_world !! "matches-container" = Some blank ∧
  length (catalog comment_world) = 1%nat ∧
  Html.parse (card_markup comment_record)
  = Some [Html.HText (indent 6); Html.HElem "h3" [] [Html.HComment]] ∧
  ∃ w' : World,
    loadMatches comment_world = Threw TypeError w' ∧
    (children <$> doc w' !! "matches-container") = Some [].
Proof.
  split; [reflexivity|]. split; [reflexivity|].
  split; [vm_compute; reflexivity|].
  eexists. split; vm_compute; reflexivity.
Qed.




(** ** showMatchDetails *)

Lemma find_match_present (i : Z) (ms : list Match) :
  In i (map id ms) →
  ∃ m, find_match i ms = Some m ∧ In m ms ∧ id m = i.
Proof.
  unfold find_match. induction ms as [|m ms IH]; cbn; [done|].
  intros Hin. destruct (Z.eqb_spec (id m) i) as [Heq|Hne].
  - exists m. auto.
  - destruct Hin as [?|Hin]; [done|].
    destruct (IH Hin) as (m' & ? & ? & ?). exists m'. auto.
Qed.

Lemma find_match_absent (i : Z) (ms : list Match) :
  ¬ In i (map id ms) → find_match i ms = None.
Proof.
  unfold find_match. induction ms as [|m ms IH]; cbn; [done|].
  intros Hnin. destruct (Z.eqb_spec (id m) i) as [Heq|Hne].
  - destruct Hnin. by left.
  - apply IH. intros ?. apply Hnin. by right.
Qed.

Lemma showMatchDetails_found (w : World) (m : Match) (ed em : Element) :
  find_match (id m) (catalog w) = Some m →
  doc w !! "match-details" = Some ed →
  doc w !! "match-modal" = Some em →
  showMatchDetails (id m) w = Returned tt
    (with_doc (insert "match-modal" (set_display "block" em))
       (with_doc (insert "match-details" (set_innerHTML (details_markup m) ed)) w)).
Proof.
  intros Hf Hd Hm. unfold showMatchDetails.
  unfold bind at 1, gets at 1. rewrite Hf.
  unfold bind at 1. rewrite (getElementById_present _ ed w Hd).
  unfold bind at 1. rewrite (assign_present _ _ ed w Hd).
  assert (Hm' : doc (with_doc (insert "match-details"
                  (set_innerHTML (details_markup m) ed)) w) !! "match-modal" = Some em).
  { cbn. by rewrite lookup_insert_ne. }
  unfold bind at 1. rewrite (getElementById_present _ em _ Hm').
  by rewrite (assign_present _ _ em _ Hm').
Qed.

Lemma details_view_has_frame (m : Match) :
  existsb (has_frame (liveStreamLink m)) (details_view m) = true.
Proof.
  apply existsb_exists. eexists. split.
  - unfold details_view. do 11 right. left. reflexivity.
  - cbn. by rewrite String.eqb_refl.
Qed.

(** C3: for an id that occurs in the catalog, the records under that id
    having plain text fields and a plain stream link (and with the modal's
    two elements in the page), showMatchDetails returns normally, the
    overlay's display is "block", and the content region holds markup that
    parses to the details of the record found under that id: its teams in a
    heading, its date, time and description in paragraphs, and a frame
    whose source is its stream link. *)
Theorem showMatchDetails_shows_record (w : World) (i : Z) (ed em : Element) :
  In i (map id (catalog w)) →
  (∀ m : Match, In m (catalog w) → id m = i → plain_details m) →
  doc w !! "match-details" = Some ed →
  doc w !! "match-modal" = Some em →
  ∃ (m : Match) (w' : World) (ed' em' : Element) (html : string),
    In m (catalog w) ∧ id m = i ∧
    showMatchDetails i w = Returned tt w' ∧
    doc w' !! "match-modal" = Some em' ∧ display em' = "block" ∧
    doc w' !! "match-details" = Some ed' ∧
    children ed' = [Markup html] ∧
    Html.parse html = Some (details_view m) ∧
    existsb (has_frame (liveStreamLink m)) (details_view m) = true.
Proof.
  intros Hin Hplain Hd Hm.
  destruct (find_match_present i (catalog w) Hin) as (m & Hf & Hm_in & <-).
  eexists m, _, _, _, _.
  split; [done|]. split; [done|].
  split; [apply (showMatchDetails_found w m ed em Hf Hd Hm)|].
  split; [cbn; apply lookup_insert_eq|]. split; [done|].
  split; [cbn; rewrite lookup_insert_ne by done; apply lookup_insert_eq|].
  split; [done|].
  split; [|apply details_view_has_frame].
  apply parse_details_markup. by apply Hplain.
Qed.

Lemma showMatchDetails_shows_record_witness :
  In 3 (map id (catalog (initial_world full_page))) ∧
  (∀ m : Match, In m (catalog (initial_world full_page)) → id m = 3 →
     plain_details m) ∧
  doc (initial_world full_page) !! "match-details" = Some blank ∧
  doc (initial_world full_page) !! "match-modal" = Some blank ∧
  ∃ (m : Match) (w' : World) (ed' em' : Element) (html : string),
    In m (catalog (initial_world full_page)) ∧ id m = 3 ∧
    showMatchDetails 3 (initial_world full_page) = Returned tt w' ∧
    doc w' !! "match-modal" = Some em' ∧ display em' = "block" ∧
    doc w' !! "match-details" = Some ed' ∧
    children ed' = [Markup html] ∧
    Html.parse html = Some (details_view m) ∧
    existsb (has_frame (liveStreamLink m)) (details_view m) = true.
Proof.
  assert (Hplain : ∀ m : Match, In m (catalog (initial_world full_page)) →
                     id m = 3 → plain_details m).
  { intros m Hm _.
    apply (proj1 (List.Forall_forall plain_details matchesData));
      [repeat constructor | exact Hm]. }
  split; [cbn; tauto|]. split; [exact Hplain|].
  split; [reflexivity|]. split; [reflexivity|].
  apply (showMatchDetails_shows_record (initial_world full_page) 3 blank blank).
  - cbn; tauto.
  - exact Hplain.
  - reflexivity.
  - reflexivity.
Defined.

(** C3 as the specification states it, for every catalog, fails: with the
    one-record catalog whose teams field is "<!--", showMatchDetails(1)
    shows the overlay, but the content region parses to a heading holding a
    comment and nothing else: no date, no time, no description, no frame. *)
Lemma showMatchDetails_shows_record_counterexample :
  In 1 (map id (catalog comment_world)) ∧
  doc comment_world !! "match-details" = Some blank ∧
  doc comment_world !! "match-modal" = Some blank ∧
  ∃ (w' : World) (html : string) (tree : list Html.node),
    showMatchDetails 1 comment_world = Returned tt w' ∧
    (children <$> doc w' !! "match-details") = Some [Markup html] ∧
    Html.parse html = Some tree ∧
    tree = [Html.HText (indent 4); Html.HElem "h2" [] [Html.HComment]] ∧
    existsb (has_frame (liveStreamLink comment_record)) tree = false.
Proof.
  split; [cbn; tauto|]. split; [reflexivity|]. split; [reflexivity|].
  eexists _, _, _.
  split; [vm_compute; reflexivity|].
  split; [vm_compute; reflexivity|].
  split; [vm_compute; reflexivity|].
  split; reflexivity.
Qed.

(** C4: for an id that does not occur in the catalog, showMatchDetails
    returns normally and the world is the one it started from: overlay
    visibility and content region are untouched, nothing is thrown. *)
Theorem showMatchDetails_unknown_id (w : World) (i : Z) :
  ¬ In i (map id (catalog w)) →
  showMatchDetails i w = Returned tt w.
Proof.
  intros Hnin. unfold showMatchDetails, bind, gets.
  by rewrite (find_match_absent i (catalog w) Hnin).
Qed.

Lemma showMatchDetails_unknown_id_witness :
  ¬ In 5 (map id (catalog (initial_world full_page))) ∧
  showMatchDetails 5 (initial_world full_page)
  = Returned tt (initial_world full_page).
Proof.
  assert (H : ¬ In 5 (map id (catalog (initial_world full_page)))).
  { cbn. intros [?|[?|[?|[?|[]]]]]; lia. }
  split; [exact H|].
  apply (showMatchDetails_unknown_id (initial_world full_page) 5 H).
Defined.

(** ** closeModal *)

Lemma closeModal_present (w : World) (em ed : Element) :
  doc w !! "match-modal" = Some em →
  doc w !! "match-details" = Some ed →
  closeModal w = Returned tt
    (with_doc (insert "match-details" (set_innerHTML "" ed))
       (with_doc (insert "match-modal" (set_display "none" em)) w)).
Proof.
  intros Hm Hd. unfold closeModal.
  unfold bind at 1. rewrite (getElementById_present _ em w Hm).
  unfold bind at 1. rewrite (assign_present _ _ em w Hm).
  assert (Hd' : doc (with_doc (insert "match-modal" (set_display "none" em)) w)
                  !! "match-details" = Some ed).
  { cbn. by rewrite lookup_insert_ne. }
  unfold bind at 1. rewrite (getElementById_present _ ed _ Hd').
  by rewrite (assign_present _ _ ed _ Hd').
Qed.

(** C5: with the modal's two elements in the page, closeModal returns
    normally, the overlay's display is "none" and the content region has no
    children; a further closeModal returns the same world. *)
Theorem closeModal_hides_and_clears (w : World) (em ed : Element) :
  doc w !! "match-modal" = Some em →
  doc w !! "match-details" = Some ed →
  ∃ (w' : World) (em' ed' : Element),
    closeModal w = Returned tt w' ∧
    doc w' !! "match-modal" = Some em' ∧ display em' = "none" ∧
    doc w' !! "match-details" = Some ed' ∧ children ed' = [] ∧
    closeModal w' = Returned tt w'.
Proof.
  intros Hm Hd. eexists _, _, _.
  split; [apply (closeModal_present w em ed Hm Hd)|].
  split; [cbn; rewrite lookup_insert_ne by done; apply lookup_insert_eq|].
  split; [done|].
  split; [cbn; apply lookup_insert_eq|]. split; [done|].
  rewrite (closeModal_present _ (set_display "none" em) (set_innerHTML "" ed)).
  - f_equal. unfold with_doc; cbn.
    rewrite (insert_insert_ne _ "match-modal" "match-details") by done.
    by rewrite !insert_insert_eq.
  - cbn. rewrite lookup_insert_ne by done. apply lookup_insert_eq.
  - cbn. apply lookup_insert_eq.
Qed.

Lemma closeModal_hides_and_clears_witness :
  doc opened_world !! "match-modal" = Some (mkElement "block" [] []) ∧
  doc opened_world !! "match-details"
  = Some (mkElement "" [Markup (details_markup (mkMatch 1 "تیم الف vs تیم ب"
      "۱۴۰۴/۰۱/۱۰" "۲۱:۰۰"
      "بازی افتتاحیه بین تیم الف و تیم ب. انتظار می‌رود بازی جذاب و پرتماشاگری باشد."
      "https://www.youtube.com/embed/dQw4w9WgXcQ"))] []) ∧
  ∃ (w' : World) (em' ed' : Element),
    closeModal opened_world = Returned tt w' ∧
    doc w' !! "match-modal" = Some em' ∧ display em' = "none" ∧
    doc w' !! "match-details" = Some ed' ∧ children ed' = [] ∧
    closeModal w' = Returned tt w'.
Proof.
  split; [vm_compute; reflexivity|]. split; [vm_compute; reflexivity|].
  eapply (closeModal_hides_and_clears opened_world); vm_compute; reflexivity.
Defined.

Lemma startCountdown_cases (e : JsNum) (w : World) :
  (doc w !! "countdown-timer" = None ∧ startCountdown e w = Returned tt w) ∨
  (is_Some (doc w !! "countdown-timer") ∧
   startCountdown e w
   = Returned tt
       (mkWorld (catalog w) (doc w)
          (<[next_interval w := mkTimer e "countdown-timer"]> (timers w))
          (S (next_interval w)))).
Proof.
  unfold startCountdown, bind, getElementById, gets.
  destruct (doc w !! "countdown-timer") as [el|]; [right|left]; eauto.
Qed.

(** ** Frame reasoning

    A relation between the world before and the world after that is
    reflexive and transitive is respected by sequencing; if in addition the
    primitive writes respect it, so do the script's operations, the event
    handlers and every run of the event loop. *)

Section Frame.
Variable R : World → World → Prop.
Hypothesis R_refl : ∀ w, R w w.
Hypothesis R_trans : ∀ w1 w2 w3, R w1 w2 → R w2 w3 → R w1 w3.

Lemma respects_ret {A} (a : A) : respects R (ret a).
Proof. intros w. apply R_refl. Qed.

Lemma respects_throw {A} (e : JsError) : respects R (@throw A e).
Proof. intros w. apply R_refl. Qed.

Lemma respects_beyond {A} : respects R (@beyond A).
Proof. intros w. apply R_refl. Qed.

Lemma respects_gets {A} (f : World → A) : respects R (gets f).
Proof. intros w. apply R_refl. Qed.

Lemma respects_bind {A B} (c : M A) (k : A → M B) :
  respects R c → (∀ a, respects R (k a)) → respects R (bind c k).
Proof.
  intros Hc Hk w. unfold bind. specialize (Hc w).
  destruct (c w) as [a w'|e w'|w']; cbn in *; [|done..].
  eapply R_trans; [exact Hc | apply Hk].
Qed.

Lemma respects_forEach {A} (l : list A) (f : A → M unit) :
  (∀ a, respects R (f a)) → respects R (forEach l f).
Proof.
  intros Hf. induction l as [|a l IH]; cbn [forEach].
  - apply respects_ret.
  - apply respects_bind; [apply Hf | intros _; apply IH].
Qed.

Lemma respects_getElementById (i : string) : respects R (getElementById i).
Proof. apply respects_gets. Qed.

Section Writes.
Hypothesis R_alter : ∀ f i w, R w (with_doc (alter f i) w).
Hypothesis R_startCountdown : ∀ e, respects R (startCountdown e).
Hypothesis R_clearInterval : ∀ i, respects R (clearInterval i).

Lemma respects_assign (r : option string) (f : Element → Element) :
  respects R (assign r f).
Proof.
  destruct r as [i|]; cbn [assign].
  - intros w. apply R_alter.
  - apply respects_throw.
Qed.

Create HintDb frame.
Local Hint Resolve respects_ret respects_throw respects_beyond respects_gets
  respects_getElementById respects_assign : frame.

Ltac frame :=
  repeat first
    [ apply respects_bind; [|intros ?]
    | apply respects_forEach; intros ?
    | progress auto with frame
    | match goal with
      | |- respects _ (match ?x with _ => _ end) => destruct x
      end ].

Lemma respects_build_card (m : Match) : respects R (build_card m).
Proof. unfold build_card. frame. Qed.

Lemma respects_loadMatches : respects R loadMatches.
Proof. unfold loadMatches. frame. apply respects_build_card. Qed.

Lemma respects_showMatchDetails (i : Z) : respects R (showMatchDetails i).
Proof. unfold showMatchDetails. frame. Qed.

Lemma respects_closeModal : respects R closeModal.
Proof. unfold closeModal. frame. Qed.

Lemma respects_write_text (slot : string) (v : JsNum) :
  respects R (write_text slot v).
Proof. unfold write_text. frame. Qed.

Lemma respects_onDOMContentLoaded : respects R onDOMContentLoaded.
Proof. unfold onDOMContentLoaded, addEventListener_if_present. frame. Qed.

Lemma respects_tick (i : nat) (t : Timer) (now : Z) :
  respects R (tick i t now).
Proof.
  unfold tick. destruct (Js.lt _ 0); frame;
    auto using respects_write_text.
Qed.

Lemma respects_fire (i : nat) (now : Z) : respects R (fire i now).
Proof.
  intros w. unfold fire. destruct (timers w !! i) as [t|].
  - apply respects_tick.
  - apply R_refl.
Qed.

Lemma respects_run_listener (l : Listener) (b : bool) :
  respects R (run_listener l b).
Proof.
  destruct l as [m| |]; cbn [run_listener];
    [apply respects_showMatchDetails | apply respects_closeModal |].
  destruct b; [apply respects_closeModal | apply respects_ret].
Qed.

Lemma dispatch_related (ls : list Listener) (b : bool) (w : World) :
  R w (dispatch ls b w).
Proof.
  unfold dispatch. revert w.
  induction ls as [|l ls IH]; intros w; cbn [fold_left]; [apply R_refl|].
  eapply R_trans; [apply (respects_run_listener l b w) | apply IH].
Qed.

Lemma handle_related (ev : Event) (w : World) : R w (handle ev w).
Proof.
  destruct ev; cbn [handle].
  - apply respects_onDOMContentLoaded.
  - apply respects_loadMatches.
  - apply respects_showMatchDetails.
  - apply respects_closeModal.
  - apply R_startCountdown.
  - destruct (doc w !! "matches-container") as [c|]; [|apply R_refl].
    destruct (children c !! n) as [[| |card]|];
      try apply R_refl. apply dispatch_related.
  - destruct (doc w !! el) as [e|]; [apply dispatch_related | apply R_refl].
  - apply respects_fire.
Qed.

Lemma run_related (evs : list Event) (w : World) : R w (run evs w).
Proof.
  unfold run. revert w.
  induction evs as [|ev evs IH]; intros w; cbn [fold_left]; [apply R_refl|].
  eapply R_trans; [apply handle_related | apply IH].
Qed.
End Writes.
End Frame.

(** ** The catalog *)

Lemma matchesData_ids : map id matchesData = [1; 2; 3; 4].
Proof. reflexivity. Qed.

(** C9: the ids of the catalog are pairwise distinct, and no run of the
    event loop (direct calls of loadMatches, showMatchDetails, closeModal and
    startCountdown, the page-ready wiring, clicks on the registered handlers,
    interval ticks) changes the catalog: after any events it is the array
    the script started with. *)
Theorem catalog_is_invariant :
  NoDup (map id matchesData) ∧
  (∀ (evs : list Event) (w : World), catalog (run evs w) = catalog w) ∧
  (∀ (evs : list Event) (d : gmap string Element),
     catalog (run evs (initial_world d)) = matchesData).
Proof.
  assert (Hrun : ∀ evs w, catalog (run evs w) = catalog w).
  { intros evs w.
    apply (run_related (fun w w' => catalog w' = catalog w));
      [done | intros w1 w2 w3 H12 H23; by rewrite H23 | done | | done].
    intros e w0. by destruct (startCountdown_cases e w0) as [[_ ->]|[_ ->]]. }
  split; [|split; [exact Hrun|]].
  - rewrite matchesData_ids. apply (bool_decide_unpack _). by vm_compute.
  - intros evs d. by rewrite Hrun.
Qed.

(** ** The countdown tick *)

Lemma pretty_N_go_length (x : N) :
  ∀ s, (String.length s ≤ String.length (pretty_N_go x s))%nat.
Proof.
  induction (N.lt_wf_0 x) as [x _ IH]; intros s.
  destruct (decide (x = 0)%N) as [->|Hx]; [by rewrite pretty_N_go_0|].
  rewrite pretty_N_go_step by lia.
  etrans; [|apply IH; apply N.div_lt; lia]. cbn. lia.
Qed.

Lemma pretty_Z_nonempty (z : Z) : pretty z ≠ EmptyString.
Proof.
  assert (Hpos : ∀ p : positive, pretty p ≠ EmptyString).
  { intros p Hp. unfold pretty, pretty_positive, pretty, pretty_N in Hp.
    destruct (decide (N.pos p = 0)%N) as [|_]; [done|].
    rewrite pretty_N_go_step in Hp by lia.
    pose proof (pretty_N_go_length (N.pos p `div` 10)
                  (String (pretty_N_char (N.pos p `mod` 10)) EmptyString)) as Hl.
    rewrite Hp in Hl. cbn in Hl. lia. }
  destruct z as [|p|p]; unfold pretty, pretty_Z; [done|apply Hpos|done].
Qed.

Lemma write_text_present (slot : string) (z : Z) (e : Element) (w : World) :
  doc w !! slot = Some e →
  write_text slot (Num z) w
  = Returned tt
      (with_doc (insert slot (mkElement (display e) [Text (pretty z)] (listeners e))) w).
Proof.
  intros He. unfold write_text, bind.
  rewrite (getElementById_present _ e w He), (assign_present _ _ e w He).
  unfold set_textContent, nodes_of_string; cbn [Js.to_string].
  pose proof (pretty_Z_nonempty z). by destruct (pretty z).
Qed.

Lemma write_text_absent (slot : string) (v : JsNum) (w : World) :
  doc w !! slot = None → write_text slot v w = Threw TypeError w.
Proof.
  intros He. unfold write_text, bind.
  by rewrite (getElementById_absent _ w He).
Qed.

Lemma round_double_exact (z : Z) :
  Z.abs z ≤ 2 ^ 53 → Js.round_double z = z.
Proof.
  intros Hz. unfold Js.round_double.
  destruct (Z.leb_spec (Z.log2 (Z.abs z) - 52) 0) as [_|Hs]; [done|].
  assert (Ha : 0 < Z.abs z).
  { destruct (Z.le_gt_cases (Z.abs z) 0) as [H0|]; [|done].
    rewrite (Z.log2_nonpos _ H0) in Hs. lia. }
  assert (Hge : 2 ^ 53 ≤ Z.abs z) by (apply Z.log2_le_pow2; lia).
  assert (Hcases : z = 2 ^ 53 ∨ z = - 2 ^ 53) by lia.
  destruct Hcases as [-> | ->]; vm_compute; reflexivity.
Qed.

Lemma round_double_sign (z : Z) : Js.round_double z < 0 ↔ z < 0.
Proof.
  unfold Js.round_double.
  destruct (Z.leb_spec (Z.log2 (Z.abs z) - 52) 0) as [_|Hs]; [done|].
  assert (Ha : 0 < Z.abs z).
  { destruct (Z.le_gt_cases (Z.abs z) 0) as [H0|]; [|done].
    rewrite (Z.log2_nonpos _ H0) in Hs. lia. }
  set (s := Z.log2 (Z.abs z) - 52) in *.
  assert (H2s : 0 < 2 ^ s) by (apply Z.pow_pos_nonneg; lia).
  assert (Hle : 2 ^ s ≤ Z.abs z).
  { transitivity (2 ^ Z.log2 (Z.abs z)).
    - apply Z.pow_le_mono_r; lia.
    - by apply Z.log2_spec. }
  assert (Hq : 1 ≤ Z.abs z `div` 2 ^ s) by (apply Z.div_le_lower_bound; lia).
  match goal with
  | |- context [if ?c then ?a else ?b] => set (q' := if c then a else b)
  end.
  assert (Hq' : 1 ≤ q') by (subst q'; case (_ || _); lia).
  assert (Hpos : 0 < q' * 2 ^ s) by (apply Z.mul_pos_pos; lia).
  destruct z as [|p|p]; cbn [Z.sgn]; lia.
Qed.

Lemma round_double_near (z : Z) :
  Z.abs z < 2 ^ 54 → Z.abs (Js.round_double z - z) ≤ 1.
Proof.
  intros Hz. destruct (Z.le_gt_cases (Z.abs z) (2 ^ 53)) as [Hsmall|Hbig].
  { rewrite (round_double_exact z Hsmall). lia. }
  assert (Hlog : Z.log2 (Z.abs z) = 53).
  { apply Z.log2_unique; [lia|]. split; [lia|]. exact Hz. }
  unfold Js.round_double. rewrite Hlog.
  change (53 - 52 <=? 0) with false. cbv beta iota zeta.
  change (2 ^ (53 - 52)) with 2. change (2 ^ (53 - 52 - 1)) with 1.
  pose proof (Z.div_mod (Z.abs z) 2 ltac:(lia)) as Hdm.
  pose proof (Z.mod_pos_bound (Z.abs z) 2 ltac:(lia)) as Hmod.
  destruct (Z.ltb_spec 1 (Z.abs z `mod` 2)) as [?|_]; [lia|].
  cbn [orb].
  destruct (Z.eqb_spec (Z.abs z `mod` 2) 1) as [Hr|Hr]; cbn [andb].
  - destruct (Z.odd (Z.abs z `div` 2)); destruct z as [|p|p]; cbn [Z.sgn] in *; lia.
  - destruct z as [|p|p]; cbn [Z.sgn] in *; lia.
Qed.

Lemma time_values_apart (e now : Z) :
  time_value e → time_value now → Z.abs (e - now) < 2 ^ 54.
Proof. unfold time_value. intros He Hnow. change (2 ^ 54) with 18014398509481984. lia. Qed.

Lemma tick_running (i : nat) (t : Timer) (e now : Z) (w : World)
    (ed eh em es : Element) :
  endDate t = Num e → now ≤ e →
  doc w !! "days" = Some ed → doc w !! "hours" = Some eh →
  doc w !! "minutes" = Some em → doc w !! "seconds" = Some es →
  tick i t now w
  = Returned tt
      (with_doc (insert "seconds" (mkElement (display es)
         [Text (pretty (Z.rem (Js.round_double (e - now)) ms_per_minute `div` 1000))]
         (listeners es)))
      (with_doc (insert "minutes" (mkElement (display em)
         [Text (pretty (Z.rem (Js.round_double (e - now)) ms_per_hour
                          `div` ms_per_minute))] (listeners em)))
      (with_doc (insert "hours" (mkElement (display eh)
         [Text (pretty (Z.rem (Js.round_double (e - now)) ms_per_day
                          `div` ms_per_hour))] (listeners eh)))
      (with_doc (insert "days" (mkElement (display ed)
         [Text (pretty (Js.round_double (e - now) `div` ms_per_day))]
         (listeners ed))) w)))).
Proof.
  intros Ht Hle Hd Hh Hm Hs. unfold tick. rewrite Ht. cbn [Js.sub Js.lt].
  destruct (Z.ltb_spec (Js.round_double (e - now)) 0) as [Hneg|_].
  { apply (proj1 (round_double_sign _)) in Hneg. lia. }
  cbn [Js.rem Js.floor_div].
  unfold bind at 1. rewrite (write_text_present _ _ ed w Hd).
  unfold bind at 1. erewrite (write_text_present _ _ eh)
    by (cbn; by rewrite lookup_insert_ne).
  unfold bind at 1. erewrite (write_text_present _ _ em)
    by (cbn; by rewrite !lookup_insert_ne).
  erewrite (write_text_present _ _ es) by (cbn; by rewrite !lookup_insert_ne).
  reflexivity.
Qed.

(** C6: on a tick of a registered interval, let [d] be the distance the
    callback computes, [endDate - now] as a double, for time values
    [endDate] and [now]; [d] is the exact difference when that is at most
    2^53 and within one millisecond of it otherwise.  If [d] is not
    negative the tick returns normally and writes into the four slots the
    floor-division components of [d]: days, hours within the day, minutes
    within the hour, seconds within the minute. *)
Theorem tick_decomposes_distance (w : World) (i : nat) (t : Timer)
    (e now d : Z) (ed eh em es : Element) :
  timers w !! i = Some t → endDate t = Num e →
  time_value e → time_value now →
  Js.sub (Num e) (Num now) = Num d → 0 ≤ d →
  doc w !! "days" = Some ed → doc w !! "hours" = Some eh →
  doc w !! "minutes" = Some em → doc w !! "seconds" = Some es →
  (Z.abs (e - now) ≤ 2 ^ 53 → d = e - now) ∧
  Z.abs (d - (e - now)) ≤ 1 ∧
  ∃ w' : World,
    fire i now w = Returned tt w' ∧
    slot_text "days" w' = Some [Text (pretty (d `div` 86400000))] ∧
    slot_text "hours" w'
    = Some [Text (pretty ((d `mod` 86400000) `div` 3600000))] ∧
    slot_text "minutes" w'
    = Some [Text (pretty ((d `mod` 3600000) `div` 60000))] ∧
    slot_text "seconds" w'
    = Some [Text (pretty ((d `mod` 60000) `div` 1000))].
Proof.
  intros Hi Ht He Hnow Hsub Hge Hd Hh Hm Hs.
  cbn [Js.sub] in Hsub. injection Hsub as <-.
  split; [intros Hsmall; by apply round_double_exact|].
  split; [apply round_double_near; by apply time_values_apart|].
  assert (Hle : now ≤ e).
  { destruct (Z.le_gt_cases now e); [done|].
    assert (Js.round_double (e - now) < 0)
      by (apply (proj2 (round_double_sign _)); lia).
    lia. }
  eexists. split.
  - unfold fire. rewrite Hi.
    apply (tick_running i t e now w ed eh em es); done.
  - unfold slot_text, ms_per_day, ms_per_hour, ms_per_minute; cbn [doc with_doc].
    rewrite !Z.rem_mod_nonneg by lia.
    repeat split.
    all: rewrite ?lookup_insert_ne by done; by rewrite lookup_insert_eq.
Qed.

(** The example of the specification: 90 seconds before the target the
    slots read 0 days, 0 hours, 1 minute, 30 seconds.  And two time values
    further apart than 2^53: the distance is the double next to the exact
    difference 17279999999997999, and the seconds slot reads 58. *)
Lemma tick_decomposes_distance_witness :
  (timers (counting_world 100000) !! 1%nat
   = Some (mkTimer (Num 100000) "countdown-timer") ∧
   Js.sub (Num 100000) (Num 10000) = Num 90000 ∧
   ∃ w' : World,
     fire 1 10000 (counting_world 100000) = Returned tt w' ∧
     slot_text "days" w' = Some [Text "0"] ∧
     slot_text "hours" w' = Some [Text "0"] ∧
     slot_text "minutes" w' = Some [Text "1"] ∧
     slot_text "seconds" w' = Some [Text "30"]) ∧
  (timers (counting_world 8639999999998999) !! 1%nat
   = Some (mkTimer (Num 8639999999998999) "countdown-timer") ∧
   Js.sub (Num 8639999999998999) (Num (-8639999999999000))
   = Num 17279999999998000 ∧
   ∃ w' : World,
     fire 1 (-8639999999999000) (counting_world 8639999999998999)
     = Returned tt w' ∧
     slot_text "days" w' = Some [Text "199999999"] ∧
     slot_text "hours" w' = Some [Text "23"] ∧
     slot_text "minutes" w' = Some [Text "59"] ∧
     slot_text "seconds" w' = Some [Text "58"]).
Proof.
  split.
  - split; [vm_compute; reflexivity|]. split; [vm_compute; reflexivity|].
    refine (proj2 (proj2 (tick_decomposes_distance (counting_world 100000) 1
              (mkTimer (Num 100000) "countdown-timer") 100000 10000 90000
              blank blank blank blank _ _ _ _ _ _ _ _ _ _)));
      solve [vm_compute; reflexivity | unfold time_value; lia | lia].
  - split; [vm_compute; reflexivity|]. split; [vm_compute; reflexivity|].
    refine (proj2 (proj2 (tick_decomposes_distance
              (counting_world 8639999999998999) 1
              (mkTimer (Num 8639999999998999) "countdown-timer")
              8639999999998999 (-8639999999999000) 17279999999998000
              blank blank blank blank _ _ _ _ _ _ _ _ _ _)));
      solve [vm_compute; reflexivity | unfold time_value; lia | lia].
Defined.

Lemma keeps_countdown_refl (w : World) : keeps_countdown w w.
Proof. by split. Qed.

Lemma keeps_countdown_trans (w1 w2 w3 : World) :
  keeps_countdown w1 w2 → keeps_countdown w2 w3 → keeps_countdown w1 w3.
Proof. intros [H1 H2] [H3 H4]. split; congruence. Qed.

Lemma write_text_keeps_countdown (slot : string) (v : JsNum) :
  slot ≠ "countdown-timer" → respects keeps_countdown (write_text slot v).
Proof.
  intros Hne w. destruct (doc w !! slot) as [e|] eqn:He.
  - unfold write_text, bind.
    rewrite (getElementById_present _ e w He), (assign_present _ _ e w He).
    split; [done|]. cbn. by rewrite lookup_insert_ne.
  - rewrite (write_text_absent _ _ _ He). apply keeps_countdown_refl.
Qed.

Lemma tick_not_negative (i : nat) (t : Timer) (now : Z) (w : World) :
  Js.lt (Js.sub (endDate t) (Num now)) 0 = false →
  keeps_countdown w (world_of (tick i t now w)).
Proof.
  intros Hlt. unfold tick. rewrite Hlt.
  revert w. change (respects keeps_countdown
    (write_text "days"
       (Js.floor_div (Js.sub (endDate t) (Num now)) ms_per_day) ;;;
     write_text "hours"
       (Js.floor_div (Js.rem (Js.sub (endDate t) (Num now)) ms_per_day) ms_per_hour) ;;;
     write_text "minutes"
       (Js.floor_div (Js.rem (Js.sub (endDate t) (Num now)) ms_per_hour) ms_per_minute) ;;;
     write_text "seconds"
       (Js.floor_div (Js.rem (Js.sub (endDate t) (Num now)) ms_per_minute) 1000))).
  repeat (apply (respects_bind _ keeps_countdown_trans); [|intros _]);
    by apply write_text_keeps_countdown.
Qed.

Lemma lt_false_iff (t : Timer) (now : Z) :
  Js.lt (Js.sub (endDate t) (Num now)) 0 = false ↔
  ¬ ∃ e, endDate t = Num e ∧ e - now < 0.
Proof.
  destruct (endDate t) as [e|]; cbn [Js.sub Js.lt].
  - rewrite Z.ltb_ge. pose proof (round_double_sign (e - now)) as Hsign. split.
    + intros Hge (e' & [= <-] & Hlt). lia.
    + intros Hn. destruct (Z.le_gt_cases 0 (Js.round_double (e - now))); [done|].
      destruct Hn. exists e. split; [done|lia].
  - split; [|done]. by intros _ (e' & ? & _).
Qed.

(** C10: a tick at the target instant itself (remaining distance 0) is not
    terminal: it returns normally, writes 0 into all four slots, leaves the
    interval registered and the countdown container untouched.  More
    generally a tick whose distance is not strictly negative never cancels
    the interval and never writes the "started" message. *)
Theorem tick_at_zero_distance (w : World) (i : nat) (t : Timer) :
  timers w !! i = Some t →
  (∀ (now : Z) (ed eh em es : Element),
     endDate t = Num now →
     doc w !! "days" = Some ed → doc w !! "hours" = Some eh →
     doc w !! "minutes" = Some em → doc w !! "seconds" = Some es →
     ∃ w' : World,
       fire i now w = Returned tt w' ∧
       timers w' !! i = Some t ∧
       doc w' !! "countdown-timer" = doc w !! "countdown-timer" ∧
       slot_text "days" w' = Some [Text "0"] ∧
       slot_text "hours" w' = Some [Text "0"] ∧
       slot_text "minutes" w' = Some [Text "0"] ∧
       slot_text "seconds" w' = Some [Text "0"]) ∧
  (∀ now : Z,
     ¬ (∃ e, endDate t = Num e ∧ e - now < 0) →
     timers (world_of (fire i now w)) !! i = Some t ∧
     doc (world_of (fire i now w)) !! "countdown-timer"
     = doc w !! "countdown-timer").
Proof.
  intros Hi.
  assert (Hframe : ∀ now, ¬ (∃ e, endDate t = Num e ∧ e - now < 0) →
            keeps_countdown w (world_of (fire i now w))).
  { intros now Hn. unfold fire. rewrite Hi.
    by apply tick_not_negative, lt_false_iff. }
  split.
  - intros now ed eh em es Ht Hd Hh Hm Hs. eexists. split.
    { unfold fire. rewrite Hi.
      apply (tick_running i t now now w ed eh em es); [done|lia|done..]. }
    split; [exact Hi|].
    split; [cbn; by rewrite !lookup_insert_ne|].
    unfold slot_text; cbn [doc with_doc]. rewrite Z.sub_diag.
    repeat split.
    all: rewrite ?lookup_insert_ne by done; by rewrite lookup_insert_eq.
  - intros now Hn. destruct (Hframe now Hn) as [-> ->]. done.
Qed.

Lemma tick_at_zero_distance_witness :
  timers (counting_world 100000) !! 1%nat
  = Some (mkTimer (Num 100000) "countdown-timer") ∧
  (∃ w' : World,
     fire 1 100000 (counting_world 100000) = Returned tt w' ∧
     timers w' !! 1%nat = Some (mkTimer (Num 100000) "countdown-timer") ∧
     doc w' !! "countdown-timer"
     = doc (counting_world 100000) !! "countdown-timer" ∧
     slot_text "days" w' = Some [Text "0"] ∧
     slot_text "hours" w' = Some [Text "0"] ∧
     slot_text "minutes" w' = Some [Text "0"] ∧
     slot_text "seconds" w' = Some [Text "0"]) ∧
  (timers (world_of (fire 1 40000 (counting_world 100000))) !! 1%nat
   = Some (mkTimer (Num 100000) "countdown-timer") ∧
   doc (world_of (fire 1 40000 (counting_world 100000))) !! "countdown-timer"
   = doc (counting_world 100000) !! "countdown-timer").
Proof.
  assert (Hi : timers (counting_world 100000) !! 1%nat
               = Some (mkTimer (Num 100000) "countdown-timer"))
    by (vm_compute; reflexivity).
  split; [exact Hi|].
  pose proof (tick_at_zero_distance (counting_world 100000) 1
                (mkTimer (Num 100000) "countdown-timer") Hi) as [Hzero Hrun].
  split.
  - apply (Hzero 100000 blank blank blank blank); vm_compute; reflexivity.
  - apply Hrun. cbn [endDate]. intros (e & He & Hlt).
    injection He as <-. lia.
Defined.

(** ** The terminal state of the countdown *)

Lemma tick_terminal (i : nat) (t : Timer) (e now : Z) (w : World) :
  endDate t = Num e → e - now < 0 →
  tick i t now w
  = Returned tt
      (with_doc (alter (set_innerHTML started_markup) (countdownElement t))
         (mkWorld (catalog w) (doc w) (delete i (timers w)) (next_interval w))).
Proof.
  intros Ht Hlt. unfold tick. rewrite Ht. cbn [Js.sub Js.lt].
  pose proof (round_double_sign (e - now)) as Hsign.
  destruct (Z.ltb_spec (Js.round_double (e - now)) 0) as [_|?]; [done|lia].
Qed.

Lemma timers_ok_run (evs : list Event) (w : World) :
  timers_ok w → timers_ok (run evs w).
Proof.
  apply (run_related (fun w w' => timers_ok w → timers_ok w')).
  - done.
  - auto.
  - intros f i w0 Hok j t Hj. destruct (Hok j t Hj) as (? & ? & ?).
    repeat split; [done..|]. cbn. by apply lookup_alter_is_Some.
  - intros e w0 Hok.
    destruct (startCountdown_cases e w0) as [[_ ->]|[Hel ->]]; [done|].
    intros j t. cbn. intros [[<- <-]|[Hne Hj]]%lookup_insert_Some.
    + repeat split; [lia|done..].
    + destruct (Hok j t Hj) as (? & ? & ?). repeat split; [lia|done..].
  - intros i w0 Hok j t. cbn. intros [_ Hj]%lookup_delete_Some.
    exact (Hok j t Hj).
Qed.

Lemma reachable_timers_ok (w : World) : reachable w → timers_ok w.
Proof.
  intros (d & evs & ->). apply timers_ok_run.
  intros j t Hj. cbn in Hj. by rewrite lookup_empty in Hj.
Qed.





(** ** Absent elements *)

Lemma loadMatches_absent (w : World) :
  doc w !! "matches-container" = None → loadMatches w = Returned tt w.
Proof.
  intros H. unfold loadMatches, bind.
  by rewrite (getElementById_absent _ w H).
Qed.

Lemma startCountdown_absent (e : JsNum) (w : World) :
  doc w !! "countdown-timer" = None → startCountdown e w = Returned tt w.
Proof.
  intros H. unfold startCountdown, bind.
  by rewrite (getElementById_absent _ w H).
Qed.

Lemma closeModal_absent_modal (w : World) :
  doc w !! "match-modal" = None → closeModal w = Threw TypeError w.
Proof.
  intros H. unfold closeModal, bind.
  by rewrite (getElementById_absent _ w H).
Qed.

Lemma showMatchDetails_absent_details (w : World) (m : Match) :
  find_match (id m) (catalog w) = Some m →
  doc w !! "match-details" = None →
  showMatchDetails (id m) w = Threw TypeError w.
Proof.
  intros Hf H. unfold showMatchDetails, bind, gets. rewrite Hf.
  by rewrite (getElementById_absent _ w H).
Qed.

(** C2: on a page that has the card container but no modal, loadMatches and
    startCountdown's guards make them return with nothing done, while
    showMatchDetails (for an id of the catalog) and closeModal, which have
    no such guard, end in a TypeError. *)
Theorem modal_operations_throw_without_modal :
  doc (initial_world cards_only_page) !! "match-details" = None ∧
  doc (initial_world cards_only_page) !! "match-modal" = None ∧
  startCountdown (Num 100000) (initial_world cards_only_page)
  = Returned tt (initial_world cards_only_page) ∧
  loadMatches (initial_world ∅) = Returned tt (initial_world ∅) ∧
  showMatchDetails 1 (initial_world cards_only_page)
  = Threw TypeError (initial_world cards_only_page) ∧
  closeModal (initial_world cards_only_page)
  = Threw TypeError (initial_world cards_only_page).
Proof.
  split; [reflexivity|]. split; [reflexivity|].
  split; [by apply startCountdown_absent|].
  split; [by apply loadMatches_absent|].
  split; [|by apply closeModal_absent_modal].
  apply (showMatchDetails_absent_details (initial_world cards_only_page)
           (mkMatch 1 "تیم الف vs تیم ب" "۱۴۰۴/۰۱/۱۰" "۲۱:۰۰"
              "بازی افتتاحیه بین تیم الف و تیم ب. انتظار می‌رود بازی جذاب و پرتماشاگری باشد."
              "https://www.youtube.com/embed/dQw4w9WgXcQ")); reflexivity.
Qed.

(** ** The end-to-end scenario of the specification *)

Example scenario_open :
  let w := run [PageReady; Call_loadMatches; ClickDetails 0] scenario_world in
  (children <$> doc w !! "matches-container")
  = Some [CardElem (rendered_card scenario_record)] ∧
  (display <$> doc w !! "match-modal") = Some "block" ∧
  (children <$> doc w !! "match-details")
  = Some [Markup (details_markup scenario_record)].
Proof. vm_compute. repeat split. Qed.

Example scenario_close :
  let w := run [PageReady; Call_loadMatches; ClickDetails 0;
                Click "close-modal" true] scenario_world in
  (display <$> doc w !! "match-modal") = Some "none" ∧
  (children <$> doc w !! "match-details") = Some [].
Proof. vm_compute. repeat split. Qed.

(** * Further properties of the script *)

(** ** Lookup by id *)

Lemma find_match_first (i : Z) (ms : list Match) (m : Match) :
  find_match i ms = Some m → In m ms ∧ id m = i.
Proof.
  unfold find_match. intros [Hin Heq]%find_some.
  split; [done|]. by apply Z.eqb_eq.
Qed.

Lemma find_match_NoDup (ms : list Match) (m : Match) :
  NoDup (map id ms) → In m ms → find_match (id m) ms = Some m.
Proof.
  unfold find_match. induction ms as [|m0 ms IH]; cbn; [done|].
  intros Hnd Hin. apply NoDup_cons in Hnd as [Hnotin Hnd].
  destruct (Z.eqb_spec (id m0) (id m)) as [Heq|Hne].
  - destruct Hin as [->|Hin]; [done|].
    destruct Hnotin. rewrite Heq. apply list_elem_of_In. by apply in_map.
  - destruct Hin as [->|Hin]; [done|]. by apply IH.
Qed.

(** X1: in a catalog whose ids are pairwise distinct, the lookup by id of
    line 74 returns a record exactly when it is the catalog's record with
    that id. *)
Theorem find_match_returns_own_record (ms : list Match) (m : Match) :
  NoDup (map id ms) →
  (find_match (id m) ms = Some m ↔ In m ms).
Proof.
  intros Hnd. split.
  - intros Hf. by destruct (find_match_first _ _ _ Hf).
  - by apply find_match_NoDup.
Qed.

Lemma find_match_returns_own_record_witness :
  NoDup (map id matchesData) ∧
  (find_match (id (nth 2 matchesData scenario_record)) matchesData
   = Some (nth 2 matchesData scenario_record) ↔
   In (nth 2 matchesData scenario_record) matchesData).
Proof.
  assert (H : NoDup (map id matchesData)).
  { apply (bool_decide_unpack _). vm_compute. reflexivity. }
  split; [exact H|].
  apply (find_match_returns_own_record matchesData
           (nth 2 matchesData scenario_record) H).
Defined.

(** ** A card's details link *)




(** ** Opening the modal again, and closing it *)

Lemma modal_writes_absorb (d : gmap string Element) (ed1 ed2 em1 em2 : Element) :
  <["match-modal" := em2]> (<["match-details" := ed2]>
    (<["match-modal" := em1]> (<["match-details" := ed1]> d)))
  = <["match-modal" := em2]> (<["match-details" := ed2]> d).
Proof.
  rewrite (insert_insert_ne _ "match-details" "match-modal") by done.
  by rewrite !insert_insert_eq.
Qed.

(** X3: with the modal's two elements in the page, opening the modal on one
    catalog id and then on another leaves the page exactly as opening it on
    the second alone: each call replaces what the call before it showed. *)
Theorem showMatchDetails_replaces_previous (w : World) (i j : Z)
    (ed em : Element) :
  In i (map id (catalog w)) → In j (map id (catalog w)) →
  doc w !! "match-details" = Some ed →
  doc w !! "match-modal" = Some em →
  (showMatchDetails i ;;; showMatchDetails j) w = showMatchDetails j w.
Proof.
  intros Hi Hj Hd Hm.
  destruct (find_match_present i _ Hi) as (mi & Hfi & _ & <-).
  destruct (find_match_present j _ Hj) as (mj & Hfj & _ & <-).
  unfold bind. rewrite (showMatchDetails_found w mi ed em Hfi Hd Hm).
  rewrite (showMatchDetails_found w mj ed em Hfj Hd Hm).
  rewrite (showMatchDetails_found _ mj
             (set_innerHTML (details_markup mi) ed) (set_display "block" em)).
  - f_equal. unfold with_doc; cbn. by rewrite modal_writes_absorb.
  - exact Hfj.
  - cbn. rewrite lookup_insert_ne by done. apply lookup_insert_eq.
  - cbn. apply lookup_insert_eq.
Qed.

Lemma showMatchDetails_replaces_previous_witness :
  In 2 (map id (catalog (initial_world full_page))) ∧
  In 4 (map id (catalog (initial_world full_page))) ∧
  (showMatchDetails 2 ;;; showMatchDetails 4) (initial_world full_page)
  = showMatchDetails 4 (initial_world full_page).
Proof.
  assert (H2 : In 2 (map id (catalog (initial_world full_page)))) by (cbn; tauto).
  assert (H4 : In 4 (map id (catalog (initial_world full_page)))) by (cbn; tauto).
  split; [exact H2|]. split; [exact H4|].
  apply (showMatchDetails_replaces_previous (initial_world full_page) 2 4
           blank blank H2 H4); reflexivity.
Defined.

(** X4: with the modal's two elements in the page, opening the modal (on
    any id, known or not) and then closing it leaves the page exactly as
    closing it straight away: nothing of the opened record survives. *)
Theorem open_then_close_is_close (w : World) (i : Z) (ed em : Element) :
  doc w !! "match-details" = Some ed →
  doc w !! "match-modal" = Some em →
  (showMatchDetails i ;;; closeModal) w = closeModal w.
Proof.
  intros Hd Hm. unfold bind.
  destruct (find_match i (catalog w)) as [m|] eqn:Hf.
  - destruct (find_match_first _ _ _ Hf) as [_ <-].
    rewrite (showMatchDetails_found w m ed em Hf Hd Hm).
    rewrite (closeModal_present w em ed Hm Hd).
    rewrite (closeModal_present _ (set_display "block" em)
               (set_innerHTML (details_markup m) ed)).
    + f_equal. unfold with_doc; cbn.
      rewrite insert_insert_eq.
      rewrite (insert_insert_ne _ "match-modal" "match-details") by done.
      by rewrite insert_insert_eq.
    + cbn. apply lookup_insert_eq.
    + cbn. rewrite lookup_insert_ne by done. apply lookup_insert_eq.
  - unfold showMatchDetails, bind, gets. by rewrite Hf.
Qed.

Lemma open_then_close_is_close_witness :
  doc (initial_world full_page) !! "match-details" = Some blank ∧
  doc (initial_world full_page) !! "match-modal" = Some blank ∧
  (showMatchDetails 3 ;;; closeModal) (initial_world full_page)
  = closeModal (initial_world full_page).
Proof.
  split; [reflexivity|]. split; [reflexivity|].
  apply (open_then_close_is_close (initial_world full_page) 3 blank blank);
    reflexivity.
Defined.

(** ** The ready handler and the clicks it wires *)

Lemma alter_absent (f : Element → Element) (i : string)
    (d : gmap string Element) :
  d !! i = None → alter f i d = d.
Proof.
  intros H. apply map_eq. intros j.
  destruct (decide (i = j)) as [<-|Hne].
  - by rewrite lookup_alter_eq, H.
  - by rewrite lookup_alter_ne.
Qed.

Lemma addEventListener_effect (i : string) (l : Listener) (w : World) :
  (let* r := getElementById i in addEventListener_if_present r l) w
  = Returned tt (with_doc (alter (add_listener l) i) w).
Proof.
  unfold bind, getElementById, gets.
  destruct (doc w !! i) as [e|] eqn:He; cbn; [done|].
  unfold ret, with_doc. rewrite (alter_absent _ _ _ He). by destruct w.
Qed.

Lemma onDOMContentLoaded_effect (w : World) :
  onDOMContentLoaded w
  = Returned tt
      (with_doc (alter (add_listener CloseOnBackdrop) "match-modal")
         (with_doc (alter (add_listener CloseOnClick) "close-modal") w)).
Proof.
  unfold onDOMContentLoaded.
  change (bind (let* r := getElementById "close-modal" in
                addEventListener_if_present r CloseOnClick)
            (fun _ => let* r := getElementById "match-modal" in
                      addEventListener_if_present r CloseOnBackdrop) w = 
          Returned tt
            (with_doc (alter (add_listener CloseOnBackdrop) "match-modal")
               (with_doc (alter (add_listener CloseOnClick) "close-modal") w))).
  unfold bind at 1. rewrite addEventListener_effect.
  apply addEventListener_effect.
Qed.


Lemma wired_modal (w : World) (em : Element) :
  doc w !! "match-modal" = Some em →
  doc (handle PageReady w) !! "match-modal"
  = Some (add_listener CloseOnBackdrop em).
Proof.
  intros Hm. cbn [handle]. rewrite onDOMContentLoaded_effect. cbn.
  by rewrite lookup_alter_eq, lookup_alter_ne, Hm.
Qed.

Lemma wired_close_control (w : World) (ec : Element) :
  doc w !! "close-modal" = Some ec →
  doc (handle PageReady w) !! "close-modal"
  = Some (add_listener CloseOnClick ec).
Proof.
  intros Hc. cbn [handle]. rewrite onDOMContentLoaded_effect. cbn.
  by rewrite lookup_alter_ne, lookup_alter_eq, Hc.
Qed.

Lemma click_dispatches (el : string) (b : bool) (e : Element) (w : World) :
  doc w !! el = Some e → handle (Click el b) w = dispatch (listeners e) b w.
Proof. intros He. cbn [handle]. by rewrite He. Qed.

(** X6: once the ready handler has run on a page whose overlay had no
    handler yet, a click whose target is the overlay itself does what
    closeModal does, and a click that reaches the overlay from inside it
    changes nothing. *)
Theorem backdrop_click_closes_only_on_overlay (w : World) (em : Element) :
  doc w !! "match-modal" = Some em → listeners em = [] →
  handle (Click "match-modal" true) (handle PageReady w)
  = world_of (closeModal (handle PageReady w)) ∧
  handle (Click "match-modal" false) (handle PageReady w)
  = handle PageReady w.
Proof.
  intros Hm Hl.
  rewrite !(click_dispatches _ _ _ _ (wired_modal w em Hm)).
  cbn [listeners add_listener]. rewrite Hl. done.
Qed.

Lemma backdrop_click_closes_only_on_overlay_witness :
  doc (initial_world full_page) !! "match-modal" = Some blank ∧
  listeners blank = [] ∧
  handle (Click "match-modal" true) (handle PageReady (initial_world full_page))
  = world_of (closeModal (handle PageReady (initial_world full_page))) ∧
  handle (Click "match-modal" false) (handle PageReady (initial_world full_page))
  = handle PageReady (initial_world full_page).
Proof.
  split; [reflexivity|]. split; [reflexivity|].
  apply (backdrop_click_closes_only_on_overlay (initial_world full_page) blank);
    reflexivity.
Defined.

(** X7: once the ready handler has run on a page whose close control had no
    handler yet, a click dispatched to the close control does what
    closeModal does, whether the control itself or something inside it was
    hit. *)
Theorem close_control_click_closes (w : World) (ec : Element) (on_itself : bool) :
  doc w !! "close-modal" = Some ec → listeners ec = [] →
  handle (Click "close-modal" on_itself) (handle PageReady w)
  = world_of (closeModal (handle PageReady w)).
Proof.
  intros Hc Hl.
  rewrite (click_dispatches _ _ _ _ (wired_close_control w ec Hc)).
  cbn [listeners add_listener]. rewrite Hl. done.
Qed.

Lemma close_control_click_closes_witness :
  doc (initial_world full_page) !! "close-modal" = Some blank ∧
  listeners blank = [] ∧
  handle (Click "close-modal" false) (handle PageReady (initial_world full_page))
  = world_of (closeModal (handle PageReady (initial_world full_page))).
Proof.
  split; [reflexivity|]. split; [reflexivity|].
  apply (close_control_click_closes (initial_world full_page) blank false);
    reflexivity.
Defined.

(** ** Starting and cancelling intervals *)

(** X8: in a reachable world whose page has the countdown container, every
    call of startCountdown returns with one more interval registered, under
    an id that was free, and with every interval registered before still
    registered: a second call does not replace the first countdown.  The
    document and the catalog are untouched. *)
Theorem startCountdown_adds_interval (w : World) (e : JsNum) (el : Element) :
  reachable w →
  doc w !! "countdown-timer" = Some el →
  ∃ w' : World,
    startCountdown e w = Returned tt w' ∧
    doc w' = doc w ∧ catalog w' = catalog w ∧
    timers w !! next_interval w = None ∧
    timers w' !! next_interval w = Some (mkTimer e "countdown-timer") ∧
    (∀ (j : nat) (t : Timer), timers w !! j = Some t → timers w' !! j = Some t) ∧
    size (timers w') = S (size (timers w)).
Proof.
  intros Hreach Hel.
  assert (Hfree : timers w !! next_interval w = None).
  { destruct (timers w !! next_interval w) as [t|] eqn:Ht; [|done].
    destruct (reachable_timers_ok w Hreach _ _ Ht) as [Hlt _]. lia. }
  destruct (startCountdown_cases e w) as [[Hn _]|[_ Hs]]; [congruence|].
  eexists. split; [exact Hs|]. cbn.
  split; [done|]. split; [done|]. split; [done|].
  split; [apply lookup_insert_eq|]. split.
  - intros j t Hj. rewrite lookup_insert_ne; [done|]. congruence.
  - by apply map_size_insert_None.
Qed.

Lemma startCountdown_adds_interval_witness :
  reachable (counting_world 100000) ∧
  doc (counting_world 100000) !! "countdown-timer" = Some blank ∧
  ∃ w' : World,
    startCountdown (Num 500000) (counting_world 100000) = Returned tt w' ∧
    doc w' = doc (counting_world 100000) ∧
    catalog w' = catalog (counting_world 100000) ∧
    timers (counting_world 100000) !! next_interval (counting_world 100000) = None ∧
    timers w' !! next_interval (counting_world 100000)
    = Some (mkTimer (Num 500000) "countdown-timer") ∧
    (∀ (j : nat) (t : Timer),
       timers (counting_world 100000) !! j = Some t → timers w' !! j = Some t) ∧
    size (timers w') = S (size (timers (counting_world 100000))).
Proof.
  assert (Hr : reachable (counting_world 100000)).
  { exists full_page, [Call_startCountdown (Num 100000)]. reflexivity. }
  split; [exact Hr|]. split; [vm_compute; reflexivity|].
  apply (startCountdown_adds_interval (counting_world 100000) (Num 500000)
           blank Hr).
  vm_compute; reflexivity.
Defined.

(** X9: a terminal tick cancels its own interval only: every other
    interval is registered after it exactly as it was before, so a second
    countdown keeps ticking when the first has ended. *)
Theorem terminal_tick_spares_the_rest (w : World) (i : nat) (t : Timer)
    (e now : Z) :
  timers w !! i = Some t → endDate t = Num e → e - now < 0 →
  ∃ w' : World,
    fire i now w = Returned tt w' ∧
    timers w' !! i = None ∧
    ∀ j : nat, j ≠ i → timers w' !! j = timers w !! j.
Proof.
  intros Hi Ht Hlt. eexists. split.
  - unfold fire. rewrite Hi. apply (tick_terminal i t e now w Ht Hlt).
  - cbn. split; [apply lookup_delete_eq|].
    intros j Hj. by rewrite lookup_delete_ne.
Qed.

(** Two countdowns: the first ends, the second stays registered. *)
Lemma terminal_tick_spares_the_rest_witness :
  timers two_countdowns_world !! 1%nat
  = Some (mkTimer (Num 100000) "countdown-timer") ∧
  timers two_countdowns_world !! 2%nat
  = Some (mkTimer (Num 500000) "countdown-timer") ∧
  100000 - 200000 < 0 ∧
  ∃ w' : World,
    fire 1 200000 two_countdowns_world = Returned tt w' ∧
    timers w' !! 1%nat = None ∧
    timers w' !! 2%nat = Some (mkTimer (Num 500000) "countdown-timer") ∧
    ∀ j : nat, j ≠ 1%nat → timers w' !! j = timers two_countdowns_world !! j.
Proof.
  assert (H1 : timers two_countdowns_world !! 1%nat
               = Some (mkTimer (Num 100000) "countdown-timer"))
    by (vm_compute; reflexivity).
  assert (H2 : timers two_countdowns_world !! 2%nat
               = Some (mkTimer (Num 500000) "countdown-timer"))
    by (vm_compute; reflexivity).
  split; [exact H1|]. split; [exact H2|]. split; [lia|].
  destruct (terminal_tick_spares_the_rest two_countdowns_world 1
              (mkTimer (Num 100000) "countdown-timer") 100000 200000 H1
              eq_refl ltac:(lia)) as (w' & Hfire & Hnone & Hrest).
  exists w'. split; [exact Hfire|]. split; [exact Hnone|].
  split; [|exact Hrest].
  rewrite (Hrest 2%nat) by lia. exact H2.
Defined.

(** ** Ticks on an incomplete page, and on an invalid date *)

Lemma write_text_effect (slot : string) (v : JsNum) (e : Element) (w : World) :
  doc w !! slot = Some e →
  write_text slot v w
  = Returned tt (with_doc (insert slot (set_textContent (Js.to_string v) e)) w).
Proof.
  intros He. unfold write_text, bind.
  by rewrite (getElementById_present _ e w He), (assign_present _ _ e w He).
Qed.

Lemma write_text_outcome (slot : string) (v : JsNum) (w : World) :
  (doc w !! slot = None ∧ write_text slot v w = Threw TypeError w) ∨
  (is_Some (doc w !! slot) ∧
   ∃ w', write_text slot v w = Returned tt w' ∧ timers w' = timers w ∧
         ∀ s, s ≠ slot → doc w' !! s = doc w !! s).
Proof.
  destruct (doc w !! slot) as [e|] eqn:He.
  - right. split; [done|]. eexists.
    split; [apply (write_text_effect _ _ e w He)|].
    split; [done|]. intros s Hs. cbn. by rewrite lookup_insert_ne.
  - left. split; [done|]. by apply write_text_absent.
Qed.

(** X10: if the page lacks any of the four slots, a tick that is not
    terminal ends in a TypeError, and the interval stays registered, so the
    same happens at every later tick until the target has passed. *)
Theorem tick_throws_without_slot (w : World) (i : nat) (t : Timer) (now : Z) :
  timers w !! i = Some t →
  ¬ (∃ e, endDate t = Num e ∧ e - now < 0) →
  doc w !! "days" = None ∨ doc w !! "hours" = None ∨
  doc w !! "minutes" = None ∨ doc w !! "seconds" = None →
  ∃ w' : World,
    fire i now w = Threw TypeError w' ∧ timers w' !! i = Some t.
Proof.
  intros Hi Hn Hmiss. apply lt_false_iff in Hn.
  unfold fire. rewrite Hi. unfold tick. rewrite Hn.
  set (d := Js.sub (endDate t) (Num now)).
  unfold bind at 1.
  destruct (write_text_outcome "days" (Js.floor_div d ms_per_day) w)
    as [[_ ->]|(Hp1 & w1 & -> & Ht1 & Hd1)]; [by exists w|].
  unfold bind at 1.
  destruct (write_text_outcome "hours"
              (Js.floor_div (Js.rem d ms_per_day) ms_per_hour) w1)
    as [[_ ->]|(Hp2 & w2 & -> & Ht2 & Hd2)]; [exists w1; by rewrite Ht1|].
  unfold bind at 1.
  destruct (write_text_outcome "minutes"
              (Js.floor_div (Js.rem d ms_per_hour) ms_per_minute) w2)
    as [[_ ->]|(Hp3 & w3 & -> & Ht3 & Hd3)]; [exists w2; by rewrite Ht2, Ht1|].
  destruct (write_text_outcome "seconds"
              (Js.floor_div (Js.rem d ms_per_minute) 1000) w3)
    as [[_ ->]|(Hp4 & _)]; [exists w3; by rewrite Ht3, Ht2, Ht1|].
  exfalso.
  rewrite Hd1 in Hp2 by done.
  rewrite Hd2, Hd1 in Hp3 by done.
  rewrite Hd3, Hd2, Hd1 in Hp4 by done.
  destruct Hmiss as [H|[H|[H|H]]]; rewrite H in *;
    by (eapply is_Some_None; eassumption).
Qed.

Lemma tick_throws_without_slot_witness :
  timers slotless_counting_world !! 1%nat
  = Some (mkTimer (Num 100000) "countdown-timer") ∧
  ∃ w' : World,
    fire 1 40000 slotless_counting_world = Threw TypeError w' ∧
    timers w' !! 1%nat = Some (mkTimer (Num 100000) "countdown-timer").
Proof.
  assert (Hi : timers slotless_counting_world !! 1%nat
               = Some (mkTimer (Num 100000) "countdown-timer"))
    by (vm_compute; reflexivity).
  split; [exact Hi|].
  apply (tick_throws_without_slot slotless_counting_world 1
           (mkTimer (Num 100000) "countdown-timer") 40000 Hi).
  - cbn [endDate]. intros (e & He & Hlt). injection He as <-. lia.
  - left. vm_compute. reflexivity.
Defined.

(** X11: when the date string does not parse ([getTime()] is NaN), no tick
    is ever terminal: with the four slots in the page every tick returns,
    writes "NaN" into each slot and leaves the interval registered. *)
Theorem tick_on_invalid_date (w : World) (i : nat) (t : Timer) (now : Z)
    (ed eh em es : Element) :
  timers w !! i = Some t → endDate t = NaN →
  doc w !! "days" = Some ed → doc w !! "hours" = Some eh →
  doc w !! "minutes" = Some em → doc w !! "seconds" = Some es →
  ∃ w' : World,
    fire i now w = Returned tt w' ∧
    timers w' !! i = Some t ∧
    slot_text "days" w' = Some [Text "NaN"] ∧
    slot_text "hours" w' = Some [Text "NaN"] ∧
    slot_text "minutes" w' = Some [Text "NaN"] ∧
    slot_text "seconds" w' = Some [Text "NaN"].
Proof.
  intros Hi Ht Hd Hh Hm Hs. unfold fire. rewrite Hi.
  unfold tick. rewrite Ht. cbn [Js.sub Js.lt Js.rem Js.floor_div].
  unfold bind at 1. rewrite (write_text_effect _ _ ed w Hd).
  unfold bind at 1. erewrite (write_text_effect _ _ eh)
    by (cbn; by rewrite lookup_insert_ne).
  unfold bind at 1. erewrite (write_text_effect _ _ em)
    by (cbn; by rewrite !lookup_insert_ne).
  erewrite (write_text_effect _ _ es) by (cbn; by rewrite !lookup_insert_ne).
  eexists. split; [reflexivity|]. split; [exact Hi|].
  unfold slot_text; cbn [doc with_doc]. repeat split.
  all: rewrite ?lookup_insert_ne by done; by rewrite lookup_insert_eq.
Qed.

Lemma tick_on_invalid_date_witness :
  timers nan_counting_world !! 1%nat = Some (mkTimer NaN "countdown-timer") ∧
  ∃ w' : World,
    fire 1 40000 nan_counting_world = Returned tt w' ∧
    timers w' !! 1%nat = Some (mkTimer NaN "countdown-timer") ∧
    slot_text "days" w' = Some [Text "NaN"] ∧
    slot_text "hours" w' = Some [Text "NaN"] ∧
    slot_text "minutes" w' = Some [Text "NaN"] ∧
    slot_text "seconds" w' = Some [Text "NaN"].
Proof.
  assert (Hi : timers nan_counting_world !! 1%nat
               = Some (mkTimer NaN "countdown-timer"))
    by (vm_compute; reflexivity).
  split; [exact Hi|].
  apply (tick_on_invalid_date nan_counting_world 1
           (mkTimer NaN "countdown-timer") 40000 blank blank blank blank Hi);
    vm_compute; reflexivity.
Defined.

(** ** What the four components add up to *)

(** X12: on a tick, let [d] be the distance the callback computes for
    time values [endDate] and [now].  If [d] is not negative the four
    numbers written are a proper clock reading of it: days is not negative,
    hours is below 24, minutes and seconds are below 60, and put together
    again they give [d] rounded down to a whole second. *)
Theorem tick_components_recompose (w : World) (i : nat) (t : Timer)
    (e now d : Z) (ed eh em es : Element) :
  timers w !! i = Some t → endDate t = Num e →
  time_value e → time_value now →
  Js.sub (Num e) (Num now) = Num d → 0 ≤ d →
  doc w !! "days" = Some ed → doc w !! "hours" = Some eh →
  doc w !! "minutes" = Some em → doc w !! "seconds" = Some es →
  ∃ (w' : World) (days hours minutes seconds : Z),
    fire i now w = Returned tt w' ∧
    slot_text "days" w' = Some [Text (pretty days)] ∧
    slot_text "hours" w' = Some [Text (pretty hours)] ∧
    slot_text "minutes" w' = Some [Text (pretty minutes)] ∧
    slot_text "seconds" w' = Some [Text (pretty seconds)] ∧
    0 ≤ days ∧ 0 ≤ hours < 24 ∧ 0 ≤ minutes < 60 ∧ 0 ≤ seconds < 60 ∧
    ((days * 24 + hours) * 60 + minutes) * 60 + seconds = d `div` 1000.
Proof.
  intros Hi Ht He Hnow Hsub Hge Hd Hh Hm Hs.
  cbn [Js.sub] in Hsub. injection Hsub as <-.
  assert (Hle : now ≤ e).
  { destruct (Z.le_gt_cases now e); [done|].
    assert (Js.round_double (e - now) < 0)
      by (apply (proj2 (round_double_sign _)); lia).
    lia. }
  eexists _, (Js.round_double (e - now) `div` ms_per_day),
    (Z.rem (Js.round_double (e - now)) ms_per_day `div` ms_per_hour),
    (Z.rem (Js.round_double (e - now)) ms_per_hour `div` ms_per_minute),
    (Z.rem (Js.round_double (e - now)) ms_per_minute `div` 1000).
  split.
  { unfold fire. rewrite Hi.
    apply (tick_running i t e now w ed eh em es); done. }
  unfold slot_text; cbn [doc with_doc].
  repeat (split; [rewrite ?lookup_insert_ne by done; by rewrite lookup_insert_eq|]).
  unfold ms_per_day, ms_per_hour, ms_per_minute.
  rewrite !Z.rem_mod_nonneg by lia.
  generalize (Js.round_double (e - now)) Hge. clear. intros d Hd.
  Z.div_mod_to_equations. lia.
Qed.

(** Two time values further apart than 2^53: the exact difference is
    17279999999997999, the distance the callback computes is the double
    17279999999998000, and the slots recompose to 17279999999998 seconds. *)
Lemma tick_components_recompose_witness :
  timers (counting_world 8639999999998999) !! 1%nat
  = Some (mkTimer (Num 8639999999998999) "countdown-timer") ∧
  Js.sub (Num 8639999999998999) (Num (-8639999999999000))
  = Num 17279999999998000 ∧
  ∃ (w' : World) (days hours minutes seconds : Z),
    fire 1 (-8639999999999000) (counting_world 8639999999998999)
    = Returned tt w' ∧
    slot_text "days" w' = Some [Text (pretty days)] ∧
    slot_text "hours" w' = Some [Text (pretty hours)] ∧
    slot_text "minutes" w' = Some [Text (pretty minutes)] ∧
    slot_text "seconds" w' = Some [Text (pretty seconds)] ∧
    0 ≤ days ∧ 0 ≤ hours < 24 ∧ 0 ≤ minutes < 60 ∧ 0 ≤ seconds < 60 ∧
    ((days * 24 + hours) * 60 + minutes) * 60 + seconds = 17279999999998.
Proof.
  split; [vm_compute; reflexivity|]. split; [vm_compute; reflexivity|].
  refine (tick_components_recompose (counting_world 8639999999998999) 1
            (mkTimer (Num 8639999999998999) "countdown-timer")
            8639999999998999 (-8639999999999000) 17279999999998000
            blank blank blank blank _ _ _ _ _ _ _ _ _ _);
    solve [vm_compute; reflexivity | unfold time_value; lia | lia].
Defined.

(** ** Half-present modals *)





(** ** Who touches the interval table *)

(** X15: only startCountdown and interval ticks touch the interval table:
    the ready handler, loadMatches, showMatchDetails, closeModal and every
    click leave the registered intervals and the next id as they were,
    whether they return or throw. *)
Theorem only_timer_events_touch_timers (ev : Event) (w : World) :
  timer_event ev = false →
  timers (handle ev w) = timers w ∧
  next_interval (handle ev w) = next_interval w.
Proof.
  set (R := fun w w' : World =>
              timers w' = timers w ∧ next_interval w' = next_interval w).
  assert (Hrefl : ∀ w, R w w) by done.
  assert (Htrans : ∀ w1 w2 w3, R w1 w2 → R w2 w3 → R w1 w3).
  { intros w1 w2 w3 [H1 H2] [H3 H4]. split; congruence. }
  assert (Halter : ∀ f i w, R w (with_doc (alter f i) w)) by done.
  intros Hev. destruct ev; try discriminate Hev; cbn [handle].
  - apply (respects_onDOMContentLoaded R Hrefl Htrans Halter).
  - apply (respects_loadMatches R Hrefl Htrans Halter).
  - apply (respects_showMatchDetails R Hrefl Htrans Halter).
  - apply (respects_closeModal R Hrefl Htrans Halter).
  - destruct (doc w !! "matches-container") as [c|]; [|done].
    destruct (children c !! n) as [[| |card]|]; try done.
    apply (dispatch_related R Hrefl Htrans Halter).
  - destruct (doc w !! el) as [e|]; [|done].
    apply (dispatch_related R Hrefl Htrans Halter).
Qed.

(** A click on the close control of the wired page, with the modal open
    and a countdown running: the handler runs and hides the overlay, and the
    countdown's interval is registered as before. *)
Lemma only_timer_events_touch_timers_witness :
  timer_event (Click "close-modal" true) = false ∧
  (display <$> doc busy_world !! "match-modal") = Some "block" ∧
  (display <$> doc (handle (Click "close-modal" true) busy_world)
                 !! "match-modal") = Some "none" ∧
  timers busy_world !! 1%nat = Some (mkTimer (Num 100000) "countdown-timer") ∧
  timers (handle (Click "close-modal" true) busy_world) = timers busy_world ∧
  next_interval (handle (Click "close-modal" true) busy_world)
  = next_interval busy_world.
Proof.
  split; [reflexivity|]. split; [vm_compute; reflexivity|].
  split; [vm_compute; reflexivity|]. split; [vm_compute; reflexivity|].
  apply (only_timer_events_touch_timers (Click "close-modal" true) busy_world).
  reflexivity.
Defined.
